(** * Text preprocessing for TTS: a shallow embedding of
      [wyoming_openai/preprocessing.py] and the properties of its filters.

    A Python [str] is a sequence of Unicode code points; it is modelled as a
    list of integers.  The module calls three library services: [re.sub],
    [str.replace] and [str.strip].  Each is embedded as an executable function
    ([Re.sub], [str_replace], [str_strip]) and the filters of the module are
    then written over them exactly as the source writes them. *)

From Stdlib Require Import String Ascii ZArith List Bool Lia.
Import ListNotations.
Open Scope Z_scope.


(** ** Text *)

Definition codepoint := Z.
Definition str := list codepoint.

(** An ASCII literal as a text (one code point per character). *)
Definition lit (s : string) : str :=
  map (fun a => Z.of_N (N_of_ascii a)) (list_ascii_of_string s).

Definition NL : codepoint := 10.
Definition SPACE : codepoint := 32.
Definition COMMA : codepoint := 44.
Definition DOT : codepoint := 46.

(** A character class is a decidable set of code points. *)
Definition cls := codepoint -> bool.

Definition is_char (a : codepoint) : cls := fun c => c =? a.
Definition not_char (a : codepoint) : cls := fun c => negb (c =? a).
Definition in_range (lo hi : codepoint) : cls := fun c => (lo <=? c) && (c <=? hi).
Definition one_of (l : list codepoint) : cls := fun c => existsb (Z.eqb c) l.

(** What [\s] matches in a [str] pattern, and what [str.strip()] strips:
    the code points for which [str.isspace()] holds. *)
Definition is_space : cls := fun c =>
  in_range 0x09 0x0D c || in_range 0x1C 0x20 c
  || is_char 0x85 c || is_char 0xA0 c || is_char 0x1680 c
  || in_range 0x2000 0x200A c || is_char 0x2028 c || is_char 0x2029 c
  || is_char 0x202F c || is_char 0x205F c || is_char 0x3000 c.

(** ** Regular expressions, as far as the module uses them *)

Module Re.

(** The constructs that occur in the patterns of the module.  Repetition is
    only ever applied to a character class, and every quantifier is greedy. *)
Inductive regex : Type :=
| Eps
| Chr (p : cls)             (* a literal character or a class [...]      *)
| Cat (r1 r2 : regex)       (* concatenation                             *)
| Plus (p : cls)            (* [...]+                                    *)
| Star (p : cls)            (* [...]*                                    *)
| Group (r : regex)         (* ( ... ), the only group is group 1        *)
| Ahead (r : regex)         (* (?= ... )                                 *)
| NotBehind (p : cls)       (* (?<![...]), a one-character look-behind   *)
| Bol.                      (* ^ under re.MULTILINE                      *)

(** Where the matcher stands: the character before the current position
    (none at the start of the text), the number of characters consumed since
    the match began, and the text still ahead. *)
Record cursor : Type := Cursor { prev : option codepoint; pos : nat; rest : str }.

(** A successful match: its length and the text of group 1, if it took part. *)
Definition found : Type := (nat * option str)%type.

Definition cont : Type := cursor -> option str -> option found.

(** Greedy repetition of a class: take one more character while possible,
    and fall back to the shorter repetition when the continuation fails. *)
Fixpoint greedy (p : cls) (k : cursor -> option found)
         (pv : option codepoint) (n : nat) (s : str) : option found :=
  match s with
  | c :: s' =>
      if p c then
        match greedy p k (Some c) (S n) s' with
        | Some r => Some r
        | None => k (Cursor pv n s)
        end
      else k (Cursor pv n s)
  | [] => k (Cursor pv n [])
  end.

(** The backtracking matcher, in continuation-passing style. *)
Fixpoint run (r : regex) (cur : cursor) (g : option str) (k : cont) : option found :=
  match r with
  | Eps => k cur g
  | Chr p =>
      match rest cur with
      | c :: s' => if p c then k (Cursor (Some c) (S (pos cur)) s') g else None
      | [] => None
      end
  | Cat r1 r2 => run r1 cur g (fun cur' g' => run r2 cur' g' k)
  | Plus p =>
      match rest cur with
      | c :: s' =>
          if p c then greedy p (fun cur' => k cur' g) (Some c) (S (pos cur)) s'
          else None
      | [] => None
      end
  | Star p => greedy p (fun cur' => k cur' g) (prev cur) (pos cur) (rest cur)
  | Group r1 =>
      run r1 cur g
          (fun cur' _ => k cur' (Some (firstn (pos cur' - pos cur) (rest cur))))
  | Ahead r1 =>
      match run r1 cur g (fun _ _ => Some (O, None)) with
      | Some _ => k cur g
      | None => None
      end
  | NotBehind p =>
      match prev cur with
      | Some c => if p c then None else k cur g
      | None => k cur g
      end
  | Bol =>
      match prev cur with
      | Some c => if c =? NL then k cur g else None
      | None => k cur g
      end
  end.

(** [match_at r pv s]: the match of [r] that starts at the head of [s],
    where [pv] is the character of the text just before it. *)
Definition match_at (r : regex) (pv : option codepoint) (s : str) : option found :=
  run r (Cursor pv O s) None (fun cur g => Some (pos cur, g)).

(** Replacement templates: literal characters and the back-reference \1. *)
Inductive ritem : Type := Lit (c : codepoint) | Ref1.

Definition expand (repl : list ritem) (g : option str) : str :=
  flat_map (fun i => match i with
                     | Lit c => [c]
                     | Ref1 => match g with Some t => t | None => [] end
                     end) repl.

(** [re.sub]: scan left to right; at each position not inside a previous
    match try the pattern; a match is replaced by the expanded template and
    the scan resumes after it; otherwise the character is copied.  [skip]
    counts the characters of the current match that are still to be passed.
    An empty match is replaced too and the scan then moves one character on.
    (Every quantifier being greedy, an empty match is found at a position
    only when no other match starts there.) *)
Fixpoint sub_from (r : regex) (repl : list ritem) (skip : nat)
         (pv : option codepoint) (s : str) : str :=
  match s with
  | [] =>
      match skip with
      | O => match match_at r pv [] with
             | Some (_, g) => expand repl g
             | None => []
             end
      | S _ => []
      end
  | c :: s' =>
      match skip with
      | S k => sub_from r repl k (Some c) s'
      | O =>
          match match_at r pv s with
          | Some (O, g) => expand repl g ++ c :: sub_from r repl O (Some c) s'
          | Some (S k, g) => expand repl g ++ sub_from r repl k (Some c) s'
          | None => c :: sub_from r repl O (Some c) s'
          end
      end
  end.

Definition sub (r : regex) (repl : list ritem) (text : str) : str :=
  sub_from r repl O None text.

End Re.

(** ** [str.replace] and [str.strip] *)

Fixpoint is_prefix (p s : str) : bool :=
  match p, s with
  | [], _ => true
  | a :: p', b :: s' => (a =? b) && is_prefix p' s'
  | _ :: _, [] => false
  end.

(** [text.replace(old, new)]: the occurrences of [old] are found left to right
    and do not overlap.  The empty string occurs before every character and at
    the end of the text.  [skip] counts the characters of the occurrence just
    replaced that are still to be passed. *)
Fixpoint replace_from (old new : str) (skip : nat) (s : str) : str :=
  match s with
  | [] =>
      match skip, old with
      | O, [] => new
      | _, _ => []
      end
  | c :: s' =>
      match skip with
      | S k => replace_from old new k s'
      | O =>
          if is_prefix old s then
            match old with
            | [] => new ++ c :: replace_from old new O s'
            | _ :: old' => new ++ replace_from old new (length old') s'
            end
          else c :: replace_from old new O s'
      end
  end.

Definition str_replace (text old new : str) : str := replace_from old new O text.

Fixpoint lstrip (s : str) : str :=
  match s with
  | c :: s' => if is_space c then lstrip s' else s
  | [] => []
  end.

(** Trailing whitespace: a character is dropped when it is whitespace and
    nothing survives after it. *)
Fixpoint rstrip (s : str) : str :=
  match s with
  | c :: s' =>
      match rstrip s' with
      | [] => if is_space c then [] else [c]
      | r => c :: r
      end
  | [] => []
  end.

Definition str_strip (s : str) : str := rstrip (lstrip s).

(** ** The filters of [preprocessing.py] *)

Import Re.

(** The character class of [emoji_pattern], range by range as the source
    lists them. *)
Definition emoji_class : cls := fun c =>
  in_range 0x1F600 0x1F64F c      (* emoticons *)
  || in_range 0x1F300 0x1F5FF c   (* symbols & pictographs *)
  || in_range 0x1F680 0x1F6FF c   (* transport & map symbols *)
  || in_range 0x1F1E0 0x1F1FF c   (* flags (iOS) *)
  || in_range 0x2702 0x27B0 c     (* dingbats *)
  || in_range 0x24C2 0x1F251 c    (* enclosed characters *)
  || in_range 0x1F900 0x1F9FF c   (* supplemental symbols *)
  || in_range 0x1FA00 0x1FA6F c   (* chess symbols *)
  || in_range 0x1FA70 0x1FAFF c.  (* symbols and pictographs extended-a *)

Definition emoji_pattern : regex := Plus emoji_class.

(** The class [.!?,;:] of the look-behind. *)
Definition punctuation : cls := one_of (lit ".!?,;:").

(** Pass 1 of [remove_emojis]: (?<![.!?,;:]) emoji_pattern \s* (?=\n) *)
Definition emoji_before_newline : regex :=
  Cat (NotBehind punctuation)
      (Cat emoji_pattern (Cat (Star is_space) (Ahead (Chr (is_char NL))))).

Definition remove_emojis (text : str) : str :=
  let text := sub emoji_before_newline [Lit DOT] text in
  sub emoji_pattern [] text.

(** The two classes of [remove_brackets_and_quotes]; the second one holds the
    ASCII double quote, the ASCII single quote, the backtick and the two
    guillemets U+00AB and U+00BB. *)
Definition bracket_class : cls := one_of (lit "()[]{}<>").
Definition quote_class : cls := one_of [34; 39; 96; 0xAB; 0xBB].

Definition remove_brackets_and_quotes (text : str) : str :=
  let text := sub (Chr bracket_class) [] text in
  let text := sub (Chr quote_class) [] text in
  text.

(** [d d ([^d]+) d d] and [d ([^d]+) d]: a span between doubled or single
    delimiters [d], as in the first four patterns of [remove_markdown]. *)
Definition span2 (d : codepoint) : regex :=
  Cat (Chr (is_char d)) (Cat (Chr (is_char d))
      (Cat (Group (Plus (not_char d))) (Cat (Chr (is_char d)) (Chr (is_char d))))).
Definition span1 (d : codepoint) : regex :=
  Cat (Chr (is_char d)) (Cat (Group (Plus (not_char d))) (Chr (is_char d))).

(** ^#+\s+ under re.MULTILINE *)
Definition header_pattern : regex :=
  Cat Bol (Cat (Plus (is_char 35)) (Plus is_space)).

(** \[([^\]]+)\]\([^\)]+\) *)
Definition link_pattern : regex :=
  Cat (Chr (is_char 91)) (Cat (Group (Plus (not_char 93)))
      (Cat (Chr (is_char 93)) (Cat (Chr (is_char 40))
           (Cat (Plus (not_char 41)) (Chr (is_char 41)))))).

Definition remove_markdown (text : str) : str :=
  let text := sub (span2 42) [Ref1] text in   (* **bold** *)
  let text := sub (span1 42) [Ref1] text in   (* *italic* *)
  let text := sub (span2 126) [Ref1] text in  (* ~~strikethrough~~ *)
  let text := sub (span1 96) [Ref1] text in   (* `code` *)
  let text := sub header_pattern [] text in
  let text := sub link_pattern [Ref1] text in
  text.

(** A [Dict[str, str]] in its enumeration order; [None] is no mapping. *)
Definition dict := list (str * str).

(** The loop [for old, new in replacements.items(): text = text.replace(old, new)]. *)
Definition replace_each (replacements : dict) (text : str) : str :=
  fold_left (fun text kv => str_replace text (fst kv) (snd kv)) replacements text.

Definition apply_custom_replacements (text : str) (replacements : option dict) : str :=
  match replacements with
  | None | Some [] => text
  | Some items => replace_each items text
  end.

Definition normalize_pauses (text : str) : str :=
  let text := str_replace text (lit "...") (lit ",") in
  let text := sub (Plus is_space) [Lit SPACE] text in
  str_strip text.

(** The keyword arguments of [preprocess_for_tts]. *)
Record options : Type := Options {
  remove_emoji : bool;
  remove_md : bool;
  remove_brackets_quotes : bool;
  custom_replacements : option dict;
  normalize_pause : bool
}.

Definition defaults : options := Options true true true None true.

(** The call [preprocess_for_tts(text, custom_replacements=d)] on top of
    other options. *)
Definition with_replacements (o : options) (d : dict) : options :=
  Options (remove_emoji o) (remove_md o) (remove_brackets_quotes o) (Some d)
          (normalize_pause o).

Definition truthy (d : option dict) : bool :=
  match d with
  | None | Some [] => false
  | Some _ => true
  end.

(** The debug record the orchestrator emits when the text changed: the first
    50 characters of the text before and after, each followed by "..." when
    it was cut. *)
Definition preview (t : str) : str :=
  firstn 50 t ++ (if (50 <? length t)%nat then lit "..." else []).

Definition str_eqb (a b : str) : bool :=
  (length a =? length b)%nat && is_prefix a b.

(** The orchestrator: the text and the record it logs, if any. *)
Definition preprocess_logged (text : str) (o : options) : str * option (str * str) :=
  let original_text := text in
  let text := if remove_emoji o then remove_emojis text else text in
  let text := if remove_md o then remove_markdown text else text in
  let text := if remove_brackets_quotes o then remove_brackets_and_quotes text else text in
  let text := if truthy (custom_replacements o)
              then apply_custom_replacements text (custom_replacements o) else text in
  let text := if normalize_pause o then normalize_pauses text else text in
  (text,
   if negb (str_eqb text original_text)
   then Some (preview original_text, preview text) else None).

Definition preprocess_for_tts (text : str) (o : options) : str :=
  fst (preprocess_logged text o).

(** The default replacements, in the order the source lists them. *)
Definition DEFAULT_REPLACEMENTS : dict :=
  [ (lit "API", lit "A P I"); (lit "EUR", lit "Euro"); (lit "JPY", lit "Yen");
    (lit "USD", lit "Dollar"); (lit "URL", lit "U R L"); (lit "PDF", lit "P D F");
    (lit "CSV", lit "C S V");
    (lit ".md", lit " M D"); (lit ".txt", lit " T X T"); (lit ".json", lit " JSON");
    (lit "~", []);
    (lit "etc.", lit "et cetera"); (lit "e.g.", lit "for example");
    (lit "i.e.", lit "that is") ].

(** ** Auxiliary functions of the proofs *)

(** The length of the longest prefix of [s] inside the class [p]. *)
Fixpoint run_len (p : cls) (s : str) : nat :=
  match s with
  | c :: s' => if p c then S (run_len p s') else O
  | [] => O
  end.

(** What [re.sub] of [[...]+] by a fixed text computes: every maximal run of
    the class becomes one copy of the text. *)
Fixpoint squeeze (p : cls) (w : str) (in_run : bool) (s : str) : str :=
  match s with
  | c :: s' =>
      if p c then (if in_run then squeeze p w true s' else w ++ squeeze p w true s')
      else c :: squeeze p w false s'
  | [] => []
  end.

(** [re.sub(r'\s+', ' ', text)] in this form. *)
Abbreviation collapse := (squeeze is_space [SPACE]).

(** The characters [remove_brackets_and_quotes] deletes. *)
Definition delimiter : cls := fun c => bracket_class c || quote_class c.

(** [occurs q s]: the text [q] is a substring of [s]. *)
Fixpoint occurs (q s : str) : bool :=
  is_prefix q s || match s with
                   | _ :: s' => occurs q s'
                   | [] => false
                   end.

(** [v] put before every character of the text and after the last one. *)
Definition interleave (v text : str) : str :=
  v ++ flat_map (fun c => c :: v) text.

(** The number of line breaks of a text. *)
Definition newlines (s : str) : nat := count_occ Z.eq_dec s NL.

(** ** The pipeline as the specification words it

    The enabled stages, in the fixed order emoji remover, markdown stripper,
    bracket/quote stripper, custom lexical replacer, pause normalizer; the
    replacer is enabled when a non-empty mapping is given.  The pipeline is
    their composition, each stage feeding the next. *)
Definition enabled_stages (o : options) : list (str -> str) :=
  (if remove_emoji o then [remove_emojis] else [])
  ++ (if remove_md o then [remove_markdown] else [])
  ++ (if remove_brackets_quotes o then [remove_brackets_and_quotes] else [])
  ++ (if truthy (custom_replacements o)
      then [fun t => apply_custom_replacements t (custom_replacements o)] else [])
  ++ (if normalize_pause o then [normalize_pauses] else []).

Definition compose_stages (stages : list (str -> str)) (text : str) : str :=
  fold_left (fun t f => f t) stages text.

Definition pipeline_spec (o : options) (text : str) : str :=
  compose_stages (enabled_stages o) text.

Definition all_disabled (d : option dict) : options :=
  Options false false false d false.

(** ** Sample texts *)

Definition party : codepoint := 0x1F389.   (* U+1F389, party popper *)
Definition snake : codepoint := 0x1F40D.   (* U+1F40D, snake *)

Definition hello_text : str :=
  lit "**Hello** world! " ++ [snake] ++ lit " Check API docs...".
Definition hello_options : options :=
  with_replacements defaults [(lit "API", lit "A P I")].

(** ** The first pass of [remove_emojis], piece by piece *)

Definition not_emoji : cls := fun c => negb (emoji_class c).

(** The look-ahead [(?=\n)] as the last piece of a match of length [n]. *)
Definition ahead_nl (n : nat) (s : str) : option found :=
  match s with
  | c :: _ => if c =? NL then Some (n, None) else None
  | [] => None
  end.

(** [\s*(?=\n)] from a cursor. *)
Definition tail_ws (cur : cursor) : option found :=
  greedy is_space (fun cur' => ahead_nl (pos cur') (rest cur'))
         (prev cur) (pos cur) (rest cur).

Definition starts_with (p : cls) (s : str) : bool :=
  match s with
  | c :: _ => p c
  | [] => false
  end.

Definition behind_punctuation (pv : option codepoint) : bool :=
  match pv with
  | Some c => punctuation c
  | None => false
  end.

(** ** What the pause normalizer establishes *)

(** Every whitespace character is a space and no whitespace follows it. *)
Fixpoint single_spaced (s : str) : bool :=
  match s with
  | c :: s' =>
      (if is_space c then (c =? SPACE) && negb (starts_with is_space s') else true)
      && single_spaced s'
  | [] => true
  end.

Fixpoint ends_with (p : cls) (s : str) : bool :=
  match s with
  | [] => false
  | c :: s' =>
      match s' with
      | [] => p c
      | _ :: _ => ends_with p s'
      end
  end.

(** After the ellipsis replacement no ellipsis is left. *)
Definition ellipsis_free_after (t : str) : Prop :=
  occurs (lit "...") (str_replace t (lit "...") (lit ",")) = false.

(** ** Further auxiliary functions *)

(** The character before the position reached after passing [l]. *)
Fixpoint prev_after (pv : option codepoint) (l : str) : option codepoint :=
  match l with
  | c :: l' => prev_after (Some c) l'
  | [] => pv
  end.

(** A character that is no emoji, no whitespace and no punctuation mark of
    the look-behind. *)
Definition ordinary : cls := fun c =>
  negb (emoji_class c) && negb (is_space c) && negb (punctuation c).

(** [triggered r p]: the pattern [r] only matches where the text begins with
    a character of the class [p]. *)
Definition triggered (r : regex) (p : cls) : Prop :=
  forall pv s, starts_with p s = false -> match_at r pv s = None.

(** The characters a pattern of [remove_markdown] can begin with:
    asterisk, tilde, backtick, hash, opening square bracket. *)
Definition markup : cls := one_of [42; 126; 96; 35; 91].

(** The same without the hash, which only counts at the start of a line. *)
Definition inline_markup : cls := one_of [42; 126; 96; 91].

Definition plain (s : str) : bool := forallb (fun c => negb (markup c)) s.

(** No two adjacent characters of [s] are both [d]. *)
Fixpoint no_double (d : codepoint) (s : str) : bool :=
  match s with
  | a :: s' => negb ((a =? d) && starts_with (is_char d) s') && no_double d s'
  | [] => true
  end.

(** The position after [pv] is the start of a line. *)
Definition line_start (pv : option codepoint) : bool :=
  match pv with
  | Some c => c =? NL
  | None => true
  end.

(** No line of the text begins with a hash; [pv] is the character before the
    text. *)
Fixpoint no_heading (pv : option codepoint) (s : str) : bool :=
  match s with
  | c :: s' => negb (line_start pv && (c =? 35)) && no_heading (Some c) s'
  | [] => true
  end.

(** The literal characters of a replacement template. *)
Definition repl_lits (repl : list ritem) : str :=
  flat_map (fun i => match i with Lit c => [c] | Ref1 => [] end) repl.

(** What the matcher keeps true along a match for a class [q] that holds of
    the whole text: it holds of the text ahead and of the text of group 1. *)
Definition kept (q : cls) (cur : cursor) (g : option str) : Prop :=
  forallb q (rest cur) = true
  /\ match g with
     | Some t => forallb q t = true
     | None => True
     end.

(** [subseq a b]: [a] is [b] with some of its characters deleted; the
    characters that stay keep their order. *)
Inductive subseq : str -> str -> Prop :=
| subseq_nil : subseq [] []
| subseq_skip (c : codepoint) (a b : str) : subseq a b -> subseq a (c :: b)
| subseq_keep (c : codepoint) (a b : str) : subseq a b -> subseq (c :: a) (c :: b).

(** The cursor stands [pos cur] characters into the text [s0]. *)
Definition at_offset (s0 : str) (cur : cursor) : Prop :=
  rest cur = skipn (pos cur) s0.

(** The text of group 1, if any, is a stretch of [s0] that ends at or before
    the offset [p]. *)
Definition stretch_before (s0 : str) (p : nat) (g : option str) : Prop :=
  match g with
  | Some t => exists a b, (a <= b)%nat /\ (b <= p)%nat
                          /\ t = firstn (b - a) (skipn a s0)
  | None => True
  end.

(** Templates that put nothing of their own into the text: the empty one and
    the back-reference alone. *)
Definition deleting (repl : list ritem) : Prop := repl = [] \/ repl = [Ref1].
(** * Properties *)

(** ** The matcher on the shapes of pattern the module uses *)

Section Greedy.

Variable p : cls.

Lemma greedy_ext (k1 k2 : cursor -> option found) :
  (forall cur, k1 cur = k2 cur) ->
  forall s pv n, greedy p k1 pv n s = greedy p k2 pv n s.
Proof.
  intros E s; induction s as [|c s IH]; intros pv n; simpl.
  - apply E.
  - rewrite IH, E. reflexivity.
Qed.

(** When the continuation cannot fail the repetition takes the whole run. *)
Lemma greedy_total (g : option str) s :
  forall pv n,
    greedy p (fun cur => Some (pos cur, g)) pv n s = Some ((n + run_len p s)%nat, g).
Proof.
  induction s as [|c s IH]; intros pv n; simpl.
  - now rewrite Nat.add_0_r.
  - destruct (p c); simpl.
    + rewrite IH. now rewrite Nat.add_succ_r.
    + now rewrite Nat.add_0_r.
Qed.

(** The previous character only reaches the continuation. *)
Lemma greedy_prev (k : cursor -> option found) :
  (forall pv1 pv2 n s, k (Cursor pv1 n s) = k (Cursor pv2 n s)) ->
  forall s pv1 pv2 n, greedy p k pv1 n s = greedy p k pv2 n s.
Proof.
  intros E s; induction s as [|c s IH]; intros pv1 pv2 n; simpl.
  - apply E.
  - now rewrite (E pv1 pv2).
Qed.

(** A repetition never looks past a character outside its class, as long as
    the continuation does not. *)
Lemma greedy_app (k : cursor -> option found) x l2 :
  p x = false ->
  (forall pv n l, k (Cursor pv n (l ++ x :: l2)) = k (Cursor pv n l)) ->
  forall l1 pv n, greedy p k pv n (l1 ++ x :: l2) = greedy p k pv n l1.
Proof.
  intros Hx E l1; induction l1 as [|c l1 IH]; intros pv n; simpl.
  - rewrite Hx. apply (E pv n []).
  - rewrite IH. pose proof (E pv n (c :: l1)) as E'. simpl in E'.
    now rewrite E'.
Qed.

(** Whatever the repetition answers, the continuation answered it at a
    position reached by consuming a prefix of the text. *)
Lemma greedy_sound (k : cursor -> option found) s :
  forall pv n r,
    greedy p k pv n s = Some r ->
    exists pv' l1 l2,
      s = l1 ++ l2 /\ forallb p l1 = true /\
      k (Cursor pv' (n + length l1) l2) = Some r.
Proof.
  induction s as [|c s IH]; intros pv n r; simpl.
  - intros H. exists pv, [], []. simpl. rewrite Nat.add_0_r. auto.
  - destruct (p c) eqn:Hc.
    + destruct (greedy p k (Some c) (S n) s) as [r'|] eqn:G.
      * intros H; inversion H; subst r'.
        destruct (IH _ _ _ G) as (pv' & l1 & l2 & -> & Hl & Hk).
        exists pv', (c :: l1), l2. simpl. rewrite Hc, Hl.
        rewrite Nat.add_succ_r. auto.
      * intros H. exists pv, [], (c :: s). simpl. rewrite Nat.add_0_r. auto.
    + intros H. exists pv, [], (c :: s). simpl. rewrite Nat.add_0_r. auto.
Qed.

End Greedy.

(** [re.sub] with a one-character pattern [[...]] and an empty replacement is a
    filter. *)
Lemma sub_class_filter (p : cls) (s : str) :
  forall pv, sub_from (Chr p) [] O pv s = filter (fun c => negb (p c)) s.
Proof.
  induction s as [|c s IH]; intros pv; [reflexivity|].
  simpl. unfold match_at; simpl.
  destruct (p c); simpl; now rewrite IH.
Qed.

Lemma squeeze_run (p : cls) (w : str) (s : str) :
  squeeze p w true s = squeeze p w false (skipn (run_len p s) s).
Proof.
  induction s as [|c s IH]; [reflexivity|].
  simpl. destruct (p c) eqn:Hc; simpl.
  - exact IH.
  - now rewrite Hc.
Qed.

Lemma match_at_plus (p : cls) (pv : option codepoint) (s : str) :
  match_at (Plus p) pv s =
  match s with
  | c :: s' => if p c then Some (S (run_len p s'), None) else None
  | [] => None
  end.
Proof.
  unfold match_at; simpl. destruct s as [|c s]; [reflexivity|].
  destruct (p c); [|reflexivity].
  now rewrite (greedy_total p None s (Some c) 1).
Qed.

Lemma sub_plus_squeeze (p : cls) (repl : list ritem) (s : str) :
  forall skip pv,
    sub_from (Plus p) repl skip pv s
    = squeeze p (expand repl None) false (skipn skip s).
Proof.
  induction s as [|c s IH]; intros skip pv.
  - destruct skip; reflexivity.
  - destruct skip as [|k].
    + cbn [sub_from skipn]. rewrite match_at_plus.
      simpl. destruct (p c) eqn:Hc.
      * rewrite IH, squeeze_run. reflexivity.
      * now rewrite IH.
    + simpl. apply IH.
Qed.

Lemma squeeze_nil_filter (p : cls) (s : str) :
  forall b, squeeze p [] b s = filter (fun c => negb (p c)) s.
Proof.
  induction s as [|c s IH]; intros b; [reflexivity|].
  simpl. destruct (p c); simpl.
  - destruct b; apply IH.
  - now rewrite IH.
Qed.

Lemma sub_plus_filter (p : cls) (s : str) :
  sub (Plus p) [] s = filter (fun c => negb (p c)) s.
Proof.
  unfold sub. rewrite sub_plus_squeeze. simpl. apply squeeze_nil_filter.
Qed.

(** ** The embedding on the documented examples *)

Example remove_markdown_spans :
  remove_markdown (lit "**Hello** *world* `code`") = lit "Hello world code".
Proof. vm_compute. reflexivity. Qed.

Example remove_markdown_link :
  remove_markdown (lit "[Docs](https://x.com)") = lit "Docs".
Proof. vm_compute. reflexivity. Qed.

Example remove_markdown_headers :
  remove_markdown (lit "# Title" ++ [NL] ++ lit "## Sub" ++ [NL] ++ lit "a # b")
  = lit "Title" ++ [NL] ++ lit "Sub" ++ [NL] ++ lit "a # b".
Proof. vm_compute. reflexivity. Qed.

Example remove_brackets_and_quotes_delimiters :
  remove_brackets_and_quotes (lit "(hi) [there] 'quoted' {x} <y> `z`" ++ [0xAB; 0xBB])
  = lit "hi there quoted x y z".
Proof. vm_compute. reflexivity. Qed.

Example normalize_pauses_wait :
  normalize_pauses (lit "Wait...   done") = lit "Wait, done".
Proof. vm_compute. reflexivity. Qed.

Example remove_emojis_punctuation_present :
  remove_emojis (lit "Done!" ++ [party; NL] ++ lit "Next")
  = lit "Done!" ++ [NL] ++ lit "Next".
Proof. vm_compute. reflexivity. Qed.

Example str_replace_overlap :
  str_replace (lit "aaaa.....") (lit "aa") (lit "b") = lit "bb....."
  /\ str_replace (lit ".....") (lit "...") (lit ",") = lit ",..".
Proof. split; vm_compute; reflexivity. Qed.

(** ** The pipeline orchestrator *)

(** C1.  On "**Hello** world! <snake> Check API docs..." with the mapping
    API -> A P I and the other options at their defaults, the pipeline returns
    "Hello world! Check A P I docs,": the bold markers and the emoji are gone,
    the mapping is applied, the ellipsis is a comma, the two spaces left
    around the emoji are one, and the exclamation mark stays.  This is not the
    "Hello world. Check A P I docs," that the example in the docstring of
    [preprocess_for_tts] gives for this call. *)
Theorem preprocess_for_tts_hello :
  preprocess_for_tts hello_text hello_options = lit "Hello world! Check A P I docs,"
  /\ preprocess_for_tts hello_text hello_options
     <> lit "Hello world. Check A P I docs,".
Proof. split; vm_compute; [reflexivity|discriminate]. Qed.

(** C4. For every text and every configuration the orchestrator returns the
    composition of the enabled stages in the fixed order, a disabled stage
    being skipped; with every stage disabled and no mapping (or an empty one)
    it returns its input. *)
Theorem preprocess_for_tts_is_pipeline :
  (forall text o, preprocess_for_tts text o = pipeline_spec o text)
  /\ (forall text, preprocess_for_tts text (all_disabled None) = text)
  /\ (forall text, preprocess_for_tts text (all_disabled (Some [])) = text).
Proof.
  split; [|split; intros text; reflexivity].
  intros text [e m b d n].
  unfold preprocess_for_tts, preprocess_logged, pipeline_spec, compose_stages,
    enabled_stages.
  cbn [fst remove_emoji remove_md remove_brackets_quotes custom_replacements
       normalize_pause].
  destruct e, m, b, (truthy d), n; reflexivity.
Qed.

(** ** The custom lexical replacer *)

Lemma str_replace_empty (s v : str) :
  str_replace s [] v = interleave v s.
Proof.
  unfold str_replace, interleave. induction s as [|c s IH]; simpl.
  - now rewrite app_nil_r.
  - now rewrite IH.
Qed.

Lemma interleave_length (v s : str) :
  length (interleave v s) = (length s + (length s + 1) * length v)%nat.
Proof.
  unfold interleave. rewrite length_app.
  induction s as [|c s IH]; simpl; [lia|].
  rewrite length_app in *. simpl. lia.
Qed.

Lemma apply_custom_replacements_each (text : str) (items : dict) :
  apply_custom_replacements text (Some items) = replace_each items text.
Proof. destruct items; reflexivity. Qed.

(** C6. The entries are applied one after the other in enumeration order, each
    one over the whole text produced so far: the mapping A -> B, B -> C turns
    "A" into "C"; an empty or absent mapping leaves the text as it is. *)
Theorem apply_custom_replacements_sequential :
  (forall text old new rest,
      apply_custom_replacements text (Some ((old, new) :: rest))
      = apply_custom_replacements (str_replace text old new) (Some rest))
  /\ apply_custom_replacements (lit "A") (Some [(lit "A", lit "B"); (lit "B", lit "C")])
     = lit "C"
  /\ (forall text, apply_custom_replacements text None = text)
  /\ (forall text, apply_custom_replacements text (Some []) = text).
Proof.
  repeat split; try reflexivity.
  intros text old new rest. now rewrite !apply_custom_replacements_each.
Qed.

(** C8, as the code has it.  An entry whose key is the empty string and whose
    value [v] is not empty puts [v] before every character and after the last
    one of the text the entries before it produced, so the text this entry
    produces is never the text it received; the entries after it are then
    applied to that text.  The mapping that holds only this entry does not
    return its input: it turns "ab" into "XaXbX" for [v] = "X". *)
Theorem apply_custom_replacements_empty_key (text v : str) (before after : dict) :
  v <> [] ->
  apply_custom_replacements text (Some (before ++ ([], v) :: after))
  = replace_each after (interleave v (replace_each before text))
  /\ (forall t, interleave v t <> t)
  /\ apply_custom_replacements text (Some [([], v)]) = interleave v text
  /\ apply_custom_replacements text (Some [([], v)]) <> text.
Proof.
  intros Hv.
  assert (Hne : forall t, interleave v t <> t).
  { intros t E. apply (f_equal (@length _)) in E.
    rewrite interleave_length in E.
    destruct v; [congruence|]. simpl in E. nia. }
  assert (Hone : apply_custom_replacements text (Some [([], v)]) = interleave v text).
  { cbn [apply_custom_replacements replace_each fold_left fst snd].
    apply str_replace_empty. }
  repeat split; auto.
  - rewrite apply_custom_replacements_each. unfold replace_each.
    rewrite fold_left_app. cbn [fold_left fst snd].
    now rewrite str_replace_empty.
  - rewrite Hone. apply Hne.
Qed.

(** C8, as stated, fails for a mapping that holds more than the empty key: a
    later entry can take out again what the empty key put in.  The mapping
    with the empty key sent to "X" and then "X" sent to the empty string
    returns "ab" for "ab". *)
Lemma apply_custom_replacements_empty_key_counterexample :
  apply_custom_replacements (lit "ab") (Some [([], lit "X"); (lit "X", [])])
  = lit "ab".
Proof. vm_compute. reflexivity. Qed.

Lemma apply_custom_replacements_empty_key_witness :
  apply_custom_replacements (lit "ab") (Some [([], lit "X")]) = lit "XaXbX".
Proof.
  assert (H : lit "X" <> []) by (vm_compute; discriminate).
  destruct (apply_custom_replacements_empty_key (lit "ab") (lit "X") [] [] H)
    as (_ & _ & E & _).
  rewrite E. reflexivity.
Defined.

(** ** The bracket/quote stripper *)

Lemma filter_fixed (f : codepoint -> bool) (s : str) :
  forallb f s = true -> filter f s = s.
Proof.
  induction s as [|c s IH]; simpl; [reflexivity|].
  intros H. apply andb_prop in H as [Hc Hs]. rewrite Hc. now rewrite IH.
Qed.

Lemma forallb_filter (f : codepoint -> bool) (s : str) :
  forallb f (filter f s) = true.
Proof.
  induction s as [|c s IH]; simpl; [reflexivity|].
  destruct (f c) eqn:Hc; simpl; [now rewrite Hc|exact IH].
Qed.

Lemma remove_brackets_and_quotes_filter (text : str) :
  remove_brackets_and_quotes text = filter (fun c => negb (delimiter c)) text.
Proof.
  unfold remove_brackets_and_quotes, sub. rewrite !sub_class_filter.
  induction text as [|c s IH]; simpl; [reflexivity|].
  unfold delimiter at 1.
  destruct (bracket_class c); simpl; [exact IH|].
  destruct (quote_class c); simpl; [exact IH|]. now rewrite IH.
Qed.

(** C7. The bracket/quote stripper is idempotent: a second application changes
    nothing, since no character of its output is a bracket or a quotation
    mark of the two classes it removes. *)
Theorem remove_brackets_and_quotes_idempotent (text : str) :
  remove_brackets_and_quotes (remove_brackets_and_quotes text)
  = remove_brackets_and_quotes text
  /\ Forall (fun c => bracket_class c = false /\ quote_class c = false)
            (remove_brackets_and_quotes text).
Proof.
  rewrite !remove_brackets_and_quotes_filter.
  pose proof (forallb_filter (fun c => negb (delimiter c)) text) as H.
  split.
  - now apply filter_fixed.
  - rewrite forallb_forall in H. apply Forall_forall. intros c Hc.
    specialize (H c Hc). unfold delimiter in H.
    apply negb_true_iff, orb_false_elim in H. exact H.
Qed.

(** ** The emoji remover on sample texts *)

(** C5. "Great job<party>\nNext line" becomes "Great job.\nNext line", and
    "Great <party> job" becomes "Great  job" with both spaces kept. *)
Theorem remove_emojis_examples :
  remove_emojis (lit "Great job" ++ [party; NL] ++ lit "Next line")
  = lit "Great job." ++ [NL] ++ lit "Next line"
  /\ remove_emojis (lit "Great " ++ [party] ++ lit " job") = lit "Great  job".
Proof. split; vm_compute; reflexivity. Qed.

(** C3. On "Hi<party>\n\nNext" the first pass matches the emoji together with
    the first of the two line breaks, since [\s*] takes line breaks too: the
    result is "Hi.\nNext", with one line break where the input has two. *)
Theorem remove_emojis_eats_newline :
  remove_emojis (lit "Hi" ++ [party; NL; NL] ++ lit "Next")
  = lit "Hi." ++ [NL] ++ lit "Next"
  /\ newlines (lit "Hi" ++ [party; NL; NL] ++ lit "Next") = 2%nat
  /\ newlines (remove_emojis (lit "Hi" ++ [party; NL; NL] ++ lit "Next")) = 1%nat.
Proof. repeat split; vm_compute; reflexivity. Qed.

(** ** The first pass of the emoji remover *)

Lemma is_space_NL : is_space NL = true.
Proof. reflexivity. Qed.

Lemma emoji_class_NL : emoji_class NL = false.
Proof. reflexivity. Qed.

Lemma space_not_NL (c : codepoint) : is_space c = false -> (c =? NL) = false.
Proof.
  intros H. destruct (Z.eqb_spec c NL) as [->|]; [|reflexivity].
  rewrite is_space_NL in H. discriminate.
Qed.

Lemma punctuation_not_emoji (c : codepoint) :
  punctuation c = true -> emoji_class c = false /\ is_space c = false.
Proof.
  unfold punctuation, one_of. simpl. rewrite !orb_true_iff.
  intros H.
  repeat (destruct H as [H|H]; [apply Z.eqb_eq in H; subst c; split; reflexivity|]).
  discriminate.
Qed.

Lemma match_at_emoji_before_newline (pv : option codepoint) (s : str) :
  match_at emoji_before_newline pv s =
  if behind_punctuation pv then None
  else match s with
       | c :: s' =>
           if emoji_class c then greedy emoji_class tail_ws (Some c) 1 s' else None
       | [] => None
       end.
Proof.
  assert (E : forall s',
    match s' with
    | c :: s'' =>
        if emoji_class c then
          greedy emoji_class
            (fun cur' => run (Cat (Star is_space) (Ahead (Chr (is_char NL))))
                             cur' None (fun cur g => Some (pos cur, g)))
            (Some c) 1 s''
        else None
    | [] => None
    end =
    match s' with
    | c :: s'' =>
        if emoji_class c then greedy emoji_class tail_ws (Some c) 1 s'' else None
    | [] => None
    end).
  { intros [|c s']; [reflexivity|]. destruct (emoji_class c); [|reflexivity].
    apply greedy_ext. intros cur. cbn [run]. unfold tail_ws.
    apply greedy_ext. intros cur'. cbn [run rest pos].
    unfold ahead_nl, is_char. destruct (rest cur') as [|d r]; [reflexivity|].
    destruct (d =? NL); reflexivity. }
  unfold match_at, emoji_before_newline, emoji_pattern, behind_punctuation.
  cbn [run prev pos rest].
  destruct pv as [c|]; [destruct (punctuation c); [reflexivity|]|]; apply E.
Qed.

Lemma match_at_not_emoji (pv : option codepoint) (s : str) :
  starts_with emoji_class s = false ->
  match_at emoji_before_newline pv s = None.
Proof.
  intros H. rewrite match_at_emoji_before_newline.
  destruct (behind_punctuation pv); [reflexivity|].
  destruct s as [|c s]; [reflexivity|]. simpl in H. now rewrite H.
Qed.

Lemma match_at_behind (c : codepoint) (s : str) :
  punctuation c = false ->
  match_at emoji_before_newline (Some c) s = match_at emoji_before_newline None s.
Proof.
  intros H. rewrite !match_at_emoji_before_newline. simpl. now rewrite H.
Qed.

Lemma ahead_nl_app (x : codepoint) (l l2 : str) (n : nat) :
  is_space x = false ->
  ahead_nl n (l ++ x :: l2) = ahead_nl n l.
Proof.
  intros Hx. destruct l as [|c l]; simpl; [|reflexivity].
  now rewrite space_not_NL.
Qed.

Lemma tail_ws_app (x : codepoint) (l l2 : str) pv n :
  is_space x = false ->
  tail_ws (Cursor pv n (l ++ x :: l2)) = tail_ws (Cursor pv n l).
Proof.
  intros Hx. unfold tail_ws. cbn [prev pos rest].
  apply greedy_app; [exact Hx|].
  intros pv' n' l'. cbn [pos rest]. now apply ahead_nl_app.
Qed.

Lemma emoji_run_app (x : codepoint) (l1 l2 : str) pv n :
  emoji_class x = false -> is_space x = false ->
  greedy emoji_class tail_ws pv n (l1 ++ x :: l2)
  = greedy emoji_class tail_ws pv n l1.
Proof.
  intros He Hs. apply greedy_app; [exact He|].
  intros pv' n' l. now apply tail_ws_app.
Qed.

(** A match of the first pass ends before the end of the text: the line break
    it looks at is not part of it. *)
Lemma tail_ws_sound (cur : cursor) (r : found) :
  tail_ws cur = Some r ->
  exists m, r = (m, None) /\ (pos cur <= m < pos cur + length (rest cur))%nat.
Proof.
  unfold tail_ws. intros H.
  apply greedy_sound in H as (pv' & l1 & l2 & E & _ & H).
  cbn [pos rest] in H. unfold ahead_nl in H.
  destruct l2 as [|c l2]; [discriminate|].
  destruct (c =? NL); [|discriminate]. inversion H; subst r.
  eexists; split; [reflexivity|]. rewrite E, length_app. simpl. lia.
Qed.

Lemma emoji_run_sound (s : str) pv n (r : found) :
  greedy emoji_class tail_ws pv n s = Some r ->
  exists m, r = (m, None) /\ (n <= m < n + length s)%nat.
Proof.
  intros H. apply greedy_sound in H as (pv' & l1 & l2 & E & _ & H).
  apply tail_ws_sound in H as (m & -> & Hm). cbn [pos rest] in Hm.
  exists m; split; [reflexivity|]. rewrite E, length_app. lia.
Qed.

Lemma match_at_bounds (pv : option codepoint) (s : str) (r : found) :
  match_at emoji_before_newline pv s = Some r ->
  exists k, r = (S k, None) /\ (S k < length s)%nat.
Proof.
  rewrite match_at_emoji_before_newline.
  destruct (behind_punctuation pv); [discriminate|].
  destruct s as [|c s]; [discriminate|].
  destruct (emoji_class c); [|discriminate].
  intros H. apply emoji_run_sound in H as (m & -> & Hm).
  destruct m as [|k]; [lia|]. exists k. simpl. split; [reflexivity|lia].
Qed.

Lemma match_at_app (x : codepoint) (l1 l2 : str) pv :
  emoji_class x = false -> is_space x = false ->
  match_at emoji_before_newline pv (l1 ++ x :: l2)
  = match_at emoji_before_newline pv l1.
Proof.
  intros He Hs. rewrite !match_at_emoji_before_newline.
  destruct (behind_punctuation pv); [reflexivity|].
  destruct l1 as [|c l1]; simpl.
  - now rewrite He.
  - destruct (emoji_class c); [|reflexivity]. now apply emoji_run_app.
Qed.

(** When whitespace and then a line break lie ahead, [\s*(?=\n)] succeeds; it
    stops right at that line break when no whitespace follows it. *)
Lemma tail_ws_found (ws post : str) :
  forallb is_space ws = true ->
  forall pv n, exists m,
    tail_ws (Cursor pv n (ws ++ NL :: post)) = Some (m, None)
    /\ (n + length ws <= m)%nat
    /\ (starts_with is_space post = false -> m = (n + length ws)%nat).
Proof.
  unfold tail_ws. cbn [prev pos rest].
  induction ws as [|w ws IH]; intros Hws pv n.
  - cbn [app greedy]. rewrite is_space_NL.
    destruct (greedy is_space (fun cur' => ahead_nl (pos cur') (rest cur'))
                     (Some NL) (S n) post) as [r|] eqn:G.
    + pose proof G as G'.
      apply (tail_ws_sound (Cursor (Some NL) (S n) post)) in G' as (m & -> & Hm).
      cbn [pos rest] in Hm.
      exists m. split; [reflexivity|]. split; [simpl; lia|].
      intros Hp. exfalso.
      destruct post as [|c post]; [simpl in Hm; lia|].
      simpl in Hp. cbn [greedy] in G. rewrite Hp in G.
      cbn [pos rest ahead_nl] in G. rewrite (space_not_NL _ Hp) in G. discriminate.
    + exists n. cbn [pos rest ahead_nl]. rewrite Z.eqb_refl. simpl.
      repeat split; lia.
  - simpl in Hws. apply andb_prop in Hws as [Hw Hws].
    cbn [app greedy]. rewrite Hw.
    destruct (IH Hws (Some w) (S n)) as (m & -> & Hm & Hx).
    exists m. split; [reflexivity|]. simpl. split; [lia|].
    intros Hp. rewrite (Hx Hp). lia.
Qed.

Lemma emoji_run_found (es ws post : str) :
  forallb emoji_class es = true ->
  forallb is_space ws = true ->
  forall pv n, exists m,
    greedy emoji_class tail_ws pv n (es ++ ws ++ NL :: post) = Some (m, None)
    /\ (n + length es + length ws <= m)%nat
    /\ (starts_with is_space post = false -> m = (n + length es + length ws)%nat).
Proof.
  intros Hes Hws. induction es as [|e es IH]; intros pv n.
  - clear Hes. cbn [app length]. rewrite Nat.add_0_r.
    revert pv n. induction ws as [|w ws IHw]; intros pv n.
    + cbn [app greedy]. rewrite emoji_class_NL.
      apply (tail_ws_found [] post eq_refl pv n).
    + pose proof Hws as Hws'. simpl in Hws'.
      apply andb_prop in Hws' as [Hw Hws'].
      cbn [app greedy]. destruct (emoji_class w).
      * destruct (IHw Hws' (Some w) (S n)) as (m & -> & Hm & Hx).
        exists m. split; [reflexivity|]. simpl. split; [lia|].
        intros Hp. rewrite (Hx Hp). lia.
      * apply (tail_ws_found (w :: ws) post Hws pv n).
  - simpl in Hes. apply andb_prop in Hes as [He Hes].
    cbn [app greedy]. rewrite He.
    destruct (IH Hes (Some e) (S n)) as (m & -> & Hm & Hx).
    exists m. split; [reflexivity|]. simpl. split; [lia|].
    intros Hp. rewrite (Hx Hp). lia.
Qed.

(** ** [re.sub] with the pattern of the first pass *)

Section FirstPass.

Variable repl : list ritem.

Let pass := sub_from emoji_before_newline repl.

Lemma pass_nil pv : pass O pv [] = [].
Proof.
  unfold pass. cbn [sub_from].
  now rewrite (match_at_not_emoji pv [] eq_refl).
Qed.

Lemma pass_copy (c : codepoint) (s : str) pv :
  emoji_class c = false ->
  pass O pv (c :: s) = c :: pass O (Some c) s.
Proof.
  intros Hc. unfold pass. cbn [sub_from].
  now rewrite (match_at_not_emoji pv (c :: s) Hc).
Qed.

Lemma pass_behind (c : codepoint) (s : str) :
  punctuation c = false -> pass O (Some c) s = pass O None s.
Proof.
  intros Hc. unfold pass. destruct s as [|d s]; cbn [sub_from];
    now rewrite (match_at_behind c _ Hc).
Qed.

Lemma pass_after_punctuation (p c : codepoint) (s : str) :
  punctuation p = true ->
  pass O (Some p) (c :: s) = c :: pass O (Some c) s.
Proof.
  intros Hp. unfold pass. cbn [sub_from].
  rewrite match_at_emoji_before_newline. simpl. now rewrite Hp.
Qed.

(** Passing the rest of a match. *)
Lemma pass_skip (l s : str) :
  forall pv, exists pv', pass (length l) pv (l ++ s) = pass O pv' s.
Proof.
  induction l as [|c l IH]; intros pv.
  - exists pv. reflexivity.
  - destruct (IH (Some c)) as (pv' & E). exists pv'.
    unfold pass in *. cbn [length app sub_from]. exact E.
Qed.

(** A character that is neither an emoji nor whitespace is a barrier: the
    text before it and the text after it are rewritten independently. *)
Lemma pass_app (x : codepoint) (l2 : str) :
  emoji_class x = false -> is_space x = false ->
  forall l1 skip pv,
    (skip <= length l1)%nat ->
    pass skip pv (l1 ++ x :: l2) = pass skip pv l1 ++ x :: pass O (Some x) l2.
Proof.
  intros He Hs. induction l1 as [|c l1 IH]; intros skip pv Hk.
  - simpl in Hk. assert (skip = O) by lia. subst skip.
    rewrite pass_nil. cbn [app]. now apply pass_copy.
  - destruct skip as [|k].
    + unfold pass in *. cbn [app sub_from].
      pose proof (match_at_app x (c :: l1) l2 pv He Hs) as E.
      cbn [app] in E. rewrite E.
      destruct (match_at emoji_before_newline pv (c :: l1)) as [r|] eqn:M.
      * apply match_at_bounds in M as (k & -> & Hlen). simpl in Hlen.
        rewrite IH by lia. now rewrite app_assoc.
      * rewrite IH by lia. reflexivity.
    + unfold pass in *. cbn [app sub_from]. apply IH. simpl in Hk. lia.
Qed.

End FirstPass.

(** ** The emoji remover *)

Lemma remove_emojis_filter (text : str) :
  remove_emojis text
  = filter not_emoji (sub_from emoji_before_newline [Lit DOT] O None text).
Proof.
  unfold remove_emojis, emoji_pattern. cbv zeta.
  now rewrite sub_plus_filter.
Qed.

Lemma pass_plain (repl : list ritem) (post : str) (l : str) :
  forallb not_emoji l = true ->
  forall pv,
    sub_from emoji_before_newline repl O pv (l ++ NL :: post)
    = l ++ NL :: sub_from emoji_before_newline repl O None post.
Proof.
  induction l as [|c l IH]; intros Hl pv.
  - cbn [app]. rewrite pass_copy by reflexivity.
    now rewrite pass_behind by reflexivity.
  - simpl in Hl. apply andb_prop in Hl as [Hc Hl].
    apply negb_true_iff in Hc.
    cbn [app]. rewrite pass_copy by exact Hc. now rewrite IH.
Qed.

(** C9. When the text begins with a run of emoji characters, then possibly
    whitespace, then a line break, the emoji remover puts a period at the
    start of the text: nothing stands before the run, so the look-behind
    holds.  When no whitespace follows the line break the run and the
    whitespace are replaced by exactly that period ("<party>\nHi" becomes
    ".\nHi"). *)
Theorem remove_emojis_at_start (es ws post : str) :
  es <> [] ->
  forallb emoji_class es = true ->
  forallb is_space ws = true ->
  (exists rest, remove_emojis (es ++ ws ++ NL :: post) = DOT :: rest)
  /\ (starts_with is_space post = false ->
      remove_emojis (es ++ ws ++ NL :: post) = DOT :: NL :: remove_emojis post).
Proof.
  intros Hne Hes Hws. destruct es as [|e es]; [congruence|]. clear Hne.
  simpl in Hes. apply andb_prop in Hes as [He Hes].
  rewrite !remove_emojis_filter. cbn [app sub_from].
  rewrite match_at_emoji_before_newline. cbn [behind_punctuation]. rewrite He.
  destruct (emoji_run_found es ws post Hes Hws (Some e) 1) as (m & -> & Hm & Hx).
  destruct m as [|k]; [lia|].
  change (expand [Lit DOT] None) with [DOT]. cbn [app filter].
  change (not_emoji DOT) with true. cbv iota.
  split; [eexists; reflexivity|].
  intros Hp. specialize (Hx Hp).
  assert (Hk : k = length (es ++ ws)) by (rewrite length_app; lia).
  rewrite app_assoc, Hk.
  destruct (pass_skip [Lit DOT] (es ++ ws) (NL :: post) (Some e)) as (pv' & ->).
  pose proof (pass_plain [Lit DOT] post [] eq_refl pv') as E.
  cbn [app] in E. rewrite E. reflexivity.
Qed.

Lemma remove_emojis_at_start_witness :
  remove_emojis ([party; NL] ++ lit "Hi") = [DOT; NL] ++ lit "Hi".
Proof.
  assert (H1 : [party] <> []) by discriminate.
  assert (H2 : forallb emoji_class [party] = true) by reflexivity.
  assert (H3 : forallb is_space [] = true) by reflexivity.
  assert (H4 : starts_with is_space (lit "Hi") = false) by reflexivity.
  exact (proj2 (remove_emojis_at_start [party] [] (lit "Hi") H1 H2 H3) H4).
Defined.

(** C2, as the code has it.  A single emoji character that stands right after
    one of . ! ? , ; : and is followed by whitespace (outside the emoji
    ranges) and a line break is deleted with nothing put in its place: no
    period is inserted, and the whitespace and the line break stay where they
    are.  The text before the punctuation mark and the text after the line
    break are rewritten as they would be on their own. *)
Theorem remove_emojis_single_after_punctuation (pre ws post : str) (p e : codepoint) :
  punctuation p = true ->
  emoji_class e = true ->
  forallb (fun c => is_space c && not_emoji c) ws = true ->
  remove_emojis (pre ++ p :: e :: ws ++ NL :: post)
  = remove_emojis pre ++ p :: ws ++ NL :: remove_emojis post.
Proof.
  intros Hp He Hws.
  assert (Hws' : forallb not_emoji ws = true).
  { rewrite forallb_forall in *. intros c Hc.
    specialize (Hws c Hc). now apply andb_prop in Hws. }
  destruct (punctuation_not_emoji p Hp) as [Hpe Hps].
  rewrite !remove_emojis_filter.
  rewrite (pass_app [Lit DOT] p (e :: ws ++ NL :: post) Hpe Hps pre O None)
    by lia.
  rewrite (pass_after_punctuation [Lit DOT] p e _ Hp).
  rewrite (pass_plain [Lit DOT] post ws Hws' (Some e)).
  rewrite filter_app. cbn [filter].
  unfold not_emoji at 2 3. rewrite Hpe, He. cbn [negb].
  rewrite filter_app, (filter_fixed not_emoji ws Hws'). cbn [filter].
  change (not_emoji NL) with true. cbv iota. reflexivity.
Qed.

Lemma remove_emojis_single_after_punctuation_witness :
  remove_emojis (lit "Done!" ++ [party; SPACE; NL] ++ lit "Next")
  = lit "Done! " ++ [NL] ++ lit "Next".
Proof.
  assert (H1 : punctuation 33 = true) by reflexivity.
  assert (H2 : emoji_class party = true) by reflexivity.
  assert (H3 : forallb (fun c => is_space c && not_emoji c) [SPACE] = true)
    by reflexivity.
  exact (remove_emojis_single_after_punctuation
           (lit "Done") [SPACE] (lit "Next") 33 party H1 H2 H3).
Defined.

(** C2, as stated, fails twice.  On "Done!<party> \nNext" the emoji goes but
    the space after it stays; on "Done!<party><party>\nNext" the second emoji
    of the run has an emoji, not a punctuation mark, before it, so the first
    pass replaces it by a period. *)
Lemma remove_emojis_after_punctuation_counterexample :
  remove_emojis (lit "Done!" ++ [party; SPACE; NL] ++ lit "Next")
  <> lit "Done!" ++ [NL] ++ lit "Next"
  /\ remove_emojis (lit "Done!" ++ [party; party; NL] ++ lit "Next")
     = lit "Done!." ++ [NL] ++ lit "Next".
Proof. split; vm_compute; [discriminate|reflexivity]. Qed.

(** ** [str.replace] *)

Lemma is_prefix_app (q t : str) : is_prefix q (q ++ t) = true.
Proof.
  induction q as [|a q IH]; simpl; [reflexivity|].
  now rewrite Z.eqb_refl, IH.
Qed.

Lemma is_prefix_split (q s : str) :
  is_prefix q s = true -> exists t, s = q ++ t.
Proof.
  revert s. induction q as [|a q IH]; intros s H.
  - now exists s.
  - destruct s as [|b s]; [discriminate|]. simpl in H.
    apply andb_prop in H as [Hab H]. apply Z.eqb_eq in Hab. subst b.
    destruct (IH s H) as (t & ->). now exists t.
Qed.

Lemma is_prefix_extend (q s l : str) :
  is_prefix q s = true -> is_prefix q (s ++ l) = true.
Proof.
  intros H. apply is_prefix_split in H as (t & ->).
  rewrite <- app_assoc. apply is_prefix_app.
Qed.

Lemma replace_from_skip (old new l s : str) :
  replace_from old new (length l) (l ++ s) = replace_from old new O s.
Proof. induction l as [|c l IH]; [reflexivity|exact IH]. Qed.

Lemma str_replace_hit (old new s : str) :
  old <> [] ->
  str_replace (old ++ s) old new = new ++ str_replace s old new.
Proof.
  unfold str_replace. destruct old as [|a old]; [congruence|]. intros _.
  cbn [app replace_from].
  pose proof (is_prefix_app (a :: old) s) as H. cbn [app] in H. rewrite H.
  now rewrite replace_from_skip.
Qed.

Lemma str_replace_miss (old new : str) (c : codepoint) (s : str) :
  is_prefix old (c :: s) = false ->
  str_replace (c :: s) old new = c :: str_replace s old new.
Proof. unfold str_replace. cbn [replace_from]. now intros ->. Qed.

Lemma str_replace_nil (old new : str) :
  old <> [] -> str_replace [] old new = [].
Proof. destruct old; [congruence|reflexivity]. Qed.

(** A text in which [old] does not occur is left as it is. *)
Lemma str_replace_absent (old new s : str) :
  old <> [] -> occurs old s = false -> str_replace s old new = s.
Proof.
  intros Ho. induction s as [|c s IH]; intros H.
  - now apply str_replace_nil.
  - simpl in H. apply orb_false_elim in H as [Hp Hs].
    rewrite str_replace_miss by exact Hp. now rewrite IH.
Qed.

Lemma occurs_cons (q : str) (c : codepoint) (s : str) :
  occurs q (c :: s) = is_prefix q (c :: s) || occurs q s.
Proof. reflexivity. Qed.

Lemma occurs_suffix (q l s : str) :
  occurs q (l ++ s) = false -> occurs q s = false.
Proof.
  induction l as [|c l IH]; [auto|].
  cbn [app]. rewrite occurs_cons. intros H.
  apply orb_false_elim in H as [_ H]. auto.
Qed.

Lemma occurs_prefix (q s l : str) :
  occurs q (s ++ l) = false -> occurs q s = false.
Proof.
  induction s as [|c s IH]; intros H.
  - destruct q as [|a q]; [|reflexivity].
    destruct l; discriminate H.
  - cbn [app] in H. rewrite occurs_cons in *.
    apply orb_false_elim in H as [Hp H]. rewrite (IH H), orb_false_r.
    destruct (is_prefix q (c :: s)) eqn:E; [|reflexivity].
    apply (is_prefix_extend _ _ l) in E. cbn [app] in E. congruence.
Qed.

(** *** The ellipsis *)

Lemma lit_ellipsis : lit "..." = [DOT; DOT; DOT].
Proof. reflexivity. Qed.

Lemma lit_comma : lit "," = [COMMA].
Proof. reflexivity. Qed.

(** Two dots at the head of the result were two dots at the head of the
    text. *)
Lemma replace_ellipsis_head (s : str) :
  is_prefix [DOT; DOT] (str_replace s (lit "...") (lit ",")) = true ->
  is_prefix [DOT; DOT] s = true.
Proof.
  rewrite lit_ellipsis, lit_comma.
  destruct s as [|d1 s]; [discriminate|].
  destruct (is_prefix [DOT; DOT; DOT] (d1 :: s)) eqn:P1.
  { apply is_prefix_split in P1 as (t & ->).
    rewrite (str_replace_hit [DOT; DOT; DOT] [COMMA] t) by discriminate.
    discriminate. }
  rewrite str_replace_miss by exact P1.
  cbn [is_prefix]. intros H. apply andb_prop in H as [H1 H].
  rewrite H1. cbn [andb].
  destruct s as [|d2 s]; [discriminate|].
  destruct (is_prefix [DOT; DOT; DOT] (d2 :: s)) eqn:P2.
  { apply is_prefix_split in P2 as (t & E). rewrite E in H.
    rewrite (str_replace_hit [DOT; DOT; DOT] [COMMA] t) in H by discriminate.
    discriminate. }
  rewrite str_replace_miss in H by exact P2.
  cbn [is_prefix] in *. apply andb_prop in H as [H2 _]. now rewrite H2.
Qed.

Lemma replace_ellipsis_free_upto (n : nat) :
  forall t, (length t <= n)%nat -> ellipsis_free_after t.
Proof.
  unfold ellipsis_free_after.
  induction n as [|n IH]; intros t Hn.
  - destruct t; [reflexivity|simpl in Hn; lia].
  - destruct t as [|c s]; [reflexivity|]. simpl in Hn.
    destruct (is_prefix (lit "...") (c :: s)) eqn:P.
    + apply is_prefix_split in P as (t & E). rewrite E.
      rewrite str_replace_hit by discriminate.
      rewrite lit_comma at 1. cbn [app]. rewrite occurs_cons.
      rewrite IH; [reflexivity|].
      apply (f_equal (@length _)) in E. rewrite length_app in E.
      simpl in E. lia.
    + rewrite str_replace_miss by exact P. rewrite occurs_cons.
      rewrite IH by lia. rewrite orb_false_r.
      destruct (is_prefix (lit "...") (c :: str_replace s (lit "...") (lit ",")))
        eqn:Q; [|reflexivity].
      rewrite lit_ellipsis in P, Q at 1. cbn [is_prefix] in P, Q.
      apply andb_prop in Q as [Qc Q].
      apply replace_ellipsis_head in Q. cbn [is_prefix] in Q.
      rewrite Qc, Q in P. discriminate.
Qed.

Lemma replace_ellipsis_free (t : str) : ellipsis_free_after t.
Proof. apply (replace_ellipsis_free_upto (length t)). lia. Qed.

(** ** Whitespace runs *)

Lemma is_space_SPACE : is_space SPACE = true.
Proof. reflexivity. Qed.

Lemma collapse_prefix (q : str) :
  forallb (fun c => negb (is_space c)) q = true ->
  forall s, is_prefix q (collapse false s) = true -> is_prefix q s = true.
Proof.
  induction q as [|a q IH]; intros Hq s H; [reflexivity|].
  simpl in Hq. apply andb_prop in Hq as [Ha Hq]. apply negb_true_iff in Ha.
  destruct s as [|d s]; [discriminate|].
  cbn [squeeze] in H. destruct (is_space d) eqn:Hd.
  - cbn [app is_prefix] in H. apply andb_prop in H as [H _].
    apply Z.eqb_eq in H. subst a. rewrite is_space_SPACE in Ha. discriminate.
  - cbn [is_prefix] in *. apply andb_prop in H as [H1 H2].
    rewrite H1. now apply IH.
Qed.

(** Collapsing brings no two characters together that a whitespace run
    kept apart. *)
Lemma collapse_occurs (q : str) (a : codepoint) :
  forallb (fun c => negb (is_space c)) (a :: q) = true ->
  forall s b, occurs (a :: q) s = false -> occurs (a :: q) (collapse b s) = false.
Proof.
  intros Hq. pose proof Hq as Hq'. simpl in Hq'.
  apply andb_prop in Hq' as [Ha Hq']. apply negb_true_iff in Ha.
  induction s as [|c s IH]; intros b H; [reflexivity|].
  rewrite occurs_cons in H. apply orb_false_elim in H as [Hp H].
  cbn [squeeze]. destruct (is_space c) eqn:Hc.
  - destruct b; [now apply IH|].
    cbn [app]. rewrite occurs_cons, IH by exact H. rewrite orb_false_r.
    cbn [is_prefix]. destruct (Z.eqb_spec a SPACE) as [->|]; [|reflexivity].
    rewrite is_space_SPACE in Ha. discriminate.
  - rewrite occurs_cons, IH by exact H. rewrite orb_false_r.
    destruct (is_prefix (a :: q) (c :: collapse false s)) eqn:Q; [|reflexivity].
    cbn [is_prefix] in *. apply andb_prop in Q as [Q1 Q2].
    apply (collapse_prefix q Hq') in Q2. rewrite Q1, Q2 in Hp. discriminate.
Qed.

Lemma collapse_single_spaced (s : str) :
  (forall b, single_spaced (collapse b s) = true)
  /\ starts_with is_space (collapse true s) = false.
Proof.
  induction s as [|c s [IH1 IH2]]; [split; [intros b|]; reflexivity|].
  cbn [squeeze]. destruct (is_space c) eqn:Hc.
  - split; [|exact IH2]. intros [|]; [apply IH1|].
    cbn [app single_spaced]. rewrite is_space_SPACE, Z.eqb_refl, IH2, IH1.
    reflexivity.
  - split; [|simpl; exact Hc]. intros b.
    cbn [single_spaced]. rewrite Hc. apply IH1.
Qed.

Lemma collapse_in_run (s : str) :
  starts_with is_space s = false -> collapse true s = collapse false s.
Proof. destruct s as [|c s]; [reflexivity|]. simpl. now intros ->. Qed.

(** A single-spaced text is left as it is. *)
Lemma collapse_fixed (s : str) :
  single_spaced s = true -> collapse false s = s.
Proof.
  induction s as [|c s IH]; [reflexivity|].
  cbn [single_spaced squeeze]. intros H. apply andb_prop in H as [Hc Hs].
  destruct (is_space c).
  - apply andb_prop in Hc as [Hc Hn]. apply Z.eqb_eq in Hc. subst c.
    apply negb_true_iff in Hn.
    rewrite collapse_in_run by exact Hn. now rewrite IH.
  - now rewrite IH.
Qed.

(** ** [str.strip] *)

Lemma lstrip_suffix (s : str) : exists l, s = l ++ lstrip s.
Proof.
  induction s as [|c s [l IH]]; [now exists []|].
  simpl. destruct (is_space c).
  - exists (c :: l). simpl. now rewrite <- IH.
  - now exists [].
Qed.

Lemma lstrip_head (s : str) : starts_with is_space (lstrip s) = false.
Proof.
  induction s as [|c s IH]; [reflexivity|].
  simpl. destruct (is_space c) eqn:Hc; [exact IH|]. simpl. exact Hc.
Qed.

Lemma lstrip_fixed (s : str) :
  starts_with is_space s = false -> lstrip s = s.
Proof. destruct s as [|c s]; [reflexivity|]. simpl. now intros ->. Qed.

Lemma rstrip_cons (c : codepoint) (s : str) :
  rstrip (c :: s) = match rstrip s with
                    | [] => if is_space c then [] else [c]
                    | r => c :: r
                    end.
Proof. reflexivity. Qed.

Lemma rstrip_prefix (s : str) : exists l, s = rstrip s ++ l.
Proof.
  induction s as [|c s [l IH]]; [now exists []|].
  rewrite rstrip_cons. destruct (rstrip s) as [|d r].
  - destruct (is_space c).
    + now exists (c :: s).
    + exists l. simpl in *. now rewrite <- IH.
  - exists l. cbn [app] in *. now rewrite <- IH.
Qed.

Lemma rstrip_head (s : str) :
  starts_with is_space s = false -> starts_with is_space (rstrip s) = false.
Proof.
  destruct s as [|c s]; [reflexivity|]. rewrite rstrip_cons. simpl. intros Hc.
  destruct (rstrip s); [rewrite Hc|]; simpl; exact Hc.
Qed.

Lemma rstrip_same_head (s : str) :
  rstrip s <> [] -> starts_with is_space (rstrip s) = starts_with is_space s.
Proof.
  destruct s as [|c s]; [reflexivity|]. rewrite rstrip_cons.
  destruct (rstrip s); [|reflexivity].
  destruct (is_space c) eqn:Hc; [congruence|]. reflexivity.
Qed.

Lemma rstrip_end (s : str) : ends_with is_space (rstrip s) = false.
Proof.
  induction s as [|c s IH]; [reflexivity|].
  rewrite rstrip_cons. destruct (rstrip s) as [|d r].
  - destruct (is_space c) eqn:Hc; [reflexivity|]. simpl. exact Hc.
  - exact IH.
Qed.

Lemma rstrip_idempotent (s : str) : rstrip (rstrip s) = rstrip s.
Proof.
  induction s as [|c s IH]; [reflexivity|].
  rewrite rstrip_cons. destruct (rstrip s) as [|d r] eqn:E.
  - destruct (is_space c) eqn:Hc; [reflexivity|]. simpl. now rewrite Hc.
  - rewrite rstrip_cons, IH. reflexivity.
Qed.

Lemma single_spaced_suffix (l s : str) :
  single_spaced (l ++ s) = true -> single_spaced s = true.
Proof.
  induction l as [|c l IH]; [auto|].
  cbn [app single_spaced]. intros H. apply andb_prop in H as [_ H]. auto.
Qed.

Lemma rstrip_single_spaced (s : str) :
  single_spaced s = true -> single_spaced (rstrip s) = true.
Proof.
  induction s as [|c s IH]; [reflexivity|].
  cbn [single_spaced]. intros H. apply andb_prop in H as [Hc Hs].
  specialize (IH Hs). rewrite rstrip_cons.
  destruct (rstrip s) as [|d r] eqn:E.
  - destruct (is_space c) eqn:Hsp; [reflexivity|]. simpl. now rewrite Hsp.
  - cbn [single_spaced] in *. rewrite IH, andb_true_r.
    destruct (is_space c); [|reflexivity].
    apply andb_prop in Hc as [Hc Hn]. rewrite Hc. cbn [andb].
    assert (Hne : rstrip s <> []) by (rewrite E; discriminate).
    apply rstrip_same_head in Hne. rewrite E in Hne.
    cbn [starts_with] in Hne |- *. now rewrite Hne.
Qed.

Lemma str_strip_fixed (s : str) : str_strip (str_strip s) = str_strip s.
Proof.
  unfold str_strip.
  rewrite (lstrip_fixed (rstrip (lstrip s))).
  - apply rstrip_idempotent.
  - apply rstrip_head, lstrip_head.
Qed.

(** ** The pause normalizer *)

Lemma normalize_pauses_eq (text : str) :
  normalize_pauses text
  = str_strip (collapse false (str_replace text (lit "...") (lit ","))).
Proof.
  unfold normalize_pauses, sub. cbv zeta. now rewrite sub_plus_squeeze.
Qed.

(** C10. The pause normalizer is idempotent.  Its output holds no "...",
    every whitespace character in it is a single space with no whitespace
    after it, and it neither begins nor ends with whitespace; on such a text
    each of the three steps changes nothing. *)
Theorem normalize_pauses_idempotent (text : str) :
  normalize_pauses (normalize_pauses text) = normalize_pauses text
  /\ occurs (lit "...") (normalize_pauses text) = false
  /\ single_spaced (normalize_pauses text) = true
  /\ starts_with is_space (normalize_pauses text) = false
  /\ ends_with is_space (normalize_pauses text) = false.
Proof.
  rewrite (normalize_pauses_eq (normalize_pauses text)).
  rewrite (normalize_pauses_eq text).
  set (a := str_replace text (lit "...") (lit ",")).
  set (b := collapse false a).
  assert (Ha : occurs (lit "...") a = false) by apply replace_ellipsis_free.
  assert (Hb : occurs (lit "...") b = false).
  { unfold b. rewrite lit_ellipsis in *. now apply collapse_occurs. }
  assert (Sb : single_spaced b = true) by apply collapse_single_spaced.
  assert (Hu : occurs (lit "...") (str_strip b) = false).
  { unfold str_strip.
    destruct (rstrip_prefix (lstrip b)) as (l2 & E2).
    destruct (lstrip_suffix b) as (l1 & E1).
    apply (occurs_prefix _ _ l2). rewrite <- E2.
    apply (occurs_suffix _ l1). now rewrite <- E1. }
  assert (Su : single_spaced (str_strip b) = true).
  { unfold str_strip. apply rstrip_single_spaced.
    destruct (lstrip_suffix b) as (l1 & E1).
    apply (single_spaced_suffix l1). now rewrite <- E1. }
  repeat split; auto.
  - rewrite str_replace_absent by (auto; discriminate).
    rewrite collapse_fixed by exact Su. apply str_strip_fixed.
  - unfold str_strip. apply rstrip_head, lstrip_head.
  - unfold str_strip. apply rstrip_end.
Qed.

(** * Further properties of the filters *)

(** ** The emoji remover *)

Lemma pass_no_emoji (repl : list ritem) (l : str) :
  forallb not_emoji l = true ->
  forall pv, sub_from emoji_before_newline repl O pv l = l.
Proof.
  induction l as [|c l IH]; intros Hl pv.
  - apply pass_nil.
  - simpl in Hl. apply andb_prop in Hl as [Hc Hl].
    apply negb_true_iff in Hc.
    rewrite pass_copy by exact Hc. now rewrite IH.
Qed.

(** The first pass on a run of emoji, whitespace and a line break that no
    punctuation mark precedes. *)
Lemma pass_run (es ws post : str) (pv : option codepoint) :
  es <> [] ->
  forallb emoji_class es = true ->
  forallb is_space ws = true ->
  starts_with is_space post = false ->
  behind_punctuation pv = false ->
  sub_from emoji_before_newline [Lit DOT] O pv (es ++ ws ++ NL :: post)
  = DOT :: NL :: sub_from emoji_before_newline [Lit DOT] O None post.
Proof.
  intros Hne Hes Hws Hp Hpv. destruct es as [|e es]; [congruence|]. clear Hne.
  simpl in Hes. apply andb_prop in Hes as [He Hes].
  cbn [app sub_from].
  rewrite match_at_emoji_before_newline, Hpv, He.
  destruct (emoji_run_found es ws post Hes Hws (Some e) 1) as (m & -> & Hm & Hx).
  specialize (Hx Hp). destruct m as [|k]; [lia|].
  assert (Hk : k = length (es ++ ws)) by (rewrite length_app; lia).
  change (expand [Lit DOT] None) with [DOT]. cbn [app].
  rewrite app_assoc, Hk.
  destruct (pass_skip [Lit DOT] (es ++ ws) (NL :: post) (Some e)) as (pv' & ->).
  pose proof (pass_plain [Lit DOT] post [] eq_refl pv') as E.
  cbn [app] in E. now rewrite E.
Qed.

Lemma emoji_not_punctuation (e : codepoint) :
  emoji_class e = true -> punctuation e = false.
Proof.
  intros He. destruct (punctuation e) eqn:P; [|reflexivity].
  apply punctuation_not_emoji in P as [P _]. congruence.
Qed.

Lemma ordinary_spec (c : codepoint) :
  ordinary c = true ->
  emoji_class c = false /\ is_space c = false /\ punctuation c = false.
Proof.
  unfold ordinary. intros H. apply andb_prop in H as [H H3].
  apply andb_prop in H as [H1 H2].
  now rewrite negb_true_iff in *.
Qed.

(** X1. No character of the emoji ranges is left in the output. *)
Theorem remove_emojis_no_emoji_left (text : str) :
  Forall (fun c => emoji_class c = false) (remove_emojis text).
Proof.
  rewrite remove_emojis_filter. apply Forall_forall. intros c Hc.
  apply filter_In in Hc as [_ Hc]. now apply negb_true_iff in Hc.
Qed.

Lemma remove_emojis_id (text : str) :
  forallb not_emoji text = true -> remove_emojis text = text.
Proof.
  intros H. rewrite remove_emojis_filter, pass_no_emoji by exact H.
  now apply filter_fixed.
Qed.

(** X2. A text without emoji characters is returned as it is. *)
Theorem remove_emojis_plain_text (text : str) :
  forallb not_emoji text = true -> remove_emojis text = text.
Proof. apply remove_emojis_id. Qed.

Lemma remove_emojis_plain_text_witness :
  remove_emojis (lit "Hello, world!" ++ [NL] ++ lit "Bye.") 
  = lit "Hello, world!" ++ [NL] ++ lit "Bye.".
Proof.
  apply (remove_emojis_plain_text (lit "Hello, world!" ++ [NL] ++ lit "Bye.")).
  reflexivity.
Defined.

(** X3. The text before and the text after a character that is no emoji and
    no whitespace are processed independently, except that a punctuation mark
    is seen by the look-behind of what follows it: for an ordinary character
    the emoji remover distributes over the split. *)
Theorem remove_emojis_split (l1 l2 : str) (x : codepoint) :
  ordinary x = true ->
  remove_emojis (l1 ++ x :: l2) = remove_emojis l1 ++ x :: remove_emojis l2.
Proof.
  intros Hx. apply ordinary_spec in Hx as (He & Hs & Hp).
  rewrite !remove_emojis_filter.
  rewrite (pass_app [Lit DOT] x l2 He Hs l1 O None) by lia.
  rewrite (pass_behind [Lit DOT] x l2 Hp).
  rewrite filter_app. cbn [filter]. unfold not_emoji at 2. rewrite He.
  reflexivity.
Qed.

Lemma remove_emojis_split_witness :
  remove_emojis (lit "a" ++ [party; NL] ++ lit "b" ++ [party; NL])
  = remove_emojis (lit "a" ++ [party; NL]) ++ lit "b" ++ remove_emojis [party; NL].
Proof.
  apply (remove_emojis_split (lit "a" ++ [party; NL]) [party; NL] 98).
  reflexivity.
Defined.

(** X4. The period rule in the middle of a text: a run of emoji, then
    whitespace, then a line break after which no whitespace follows, standing
    right after an ordinary character, is replaced by one period; that last
    line break stays.  The whitespace may hold line breaks of its own: they
    are replaced with it. *)
Theorem remove_emojis_period_rule (pre es ws post : str) (c : codepoint) :
  ordinary c = true ->
  es <> [] ->
  forallb emoji_class es = true ->
  forallb is_space ws = true ->
  starts_with is_space post = false ->
  remove_emojis (pre ++ c :: es ++ ws ++ NL :: post)
  = remove_emojis pre ++ c :: DOT :: NL :: remove_emojis post.
Proof.
  intros Hc Hne Hes Hws Hpost. apply ordinary_spec in Hc as (He & Hs & Hp).
  rewrite !remove_emojis_filter.
  rewrite (pass_app [Lit DOT] c (es ++ ws ++ NL :: post) He Hs pre O None) by lia.
  rewrite (pass_run es ws post (Some c) Hne Hes Hws Hpost Hp).
  rewrite filter_app. cbn [filter]. unfold not_emoji at 2. rewrite He.
  reflexivity.
Qed.

Lemma remove_emojis_period_rule_witness :
  remove_emojis (lit "Great job" ++ [party; snake; SPACE; NL; NL] ++ lit "Next line")
  = lit "Great job." ++ [NL] ++ lit "Next line".
Proof.
  assert (H1 : ordinary 98 = true) by reflexivity.
  assert (H2 : [party; snake] <> []) by discriminate.
  assert (H3 : forallb emoji_class [party; snake] = true) by reflexivity.
  assert (H4 : forallb is_space [SPACE; NL] = true) by reflexivity.
  assert (H5 : starts_with is_space (lit "Next line") = false) by reflexivity.
  exact (remove_emojis_period_rule (lit "Great jo") [party; snake] [SPACE; NL]
           (lit "Next line") 98 H1 H2 H3 H4 H5).
Defined.

(** X5. After a punctuation mark the look-behind only protects the first
    emoji: when two or more emoji follow one of . ! ? , ; : and whitespace and
    a line break come next, the first emoji is deleted and the rest of the
    run, with the whitespace, becomes a period. *)
Theorem remove_emojis_run_after_punctuation (pre es ws post : str) (p e : codepoint) :
  punctuation p = true ->
  emoji_class e = true ->
  es <> [] ->
  forallb emoji_class es = true ->
  forallb is_space ws = true ->
  starts_with is_space post = false ->
  remove_emojis (pre ++ p :: e :: es ++ ws ++ NL :: post)
  = remove_emojis pre ++ p :: DOT :: NL :: remove_emojis post.
Proof.
  intros Hp He Hne Hes Hws Hpost.
  destruct (punctuation_not_emoji p Hp) as [Hpe Hps].
  rewrite !remove_emojis_filter.
  rewrite (pass_app [Lit DOT] p (e :: es ++ ws ++ NL :: post) Hpe Hps pre O None)
    by lia.
  rewrite (pass_after_punctuation [Lit DOT] p e _ Hp).
  rewrite (pass_run es ws post (Some e) Hne Hes Hws Hpost
             (emoji_not_punctuation e He)).
  rewrite filter_app. cbn [filter]. unfold not_emoji at 2 3. rewrite Hpe, He.
  reflexivity.
Qed.

Lemma remove_emojis_run_after_punctuation_witness :
  remove_emojis (lit "Done!" ++ [party; party; NL] ++ lit "Next")
  = lit "Done!." ++ [NL] ++ lit "Next".
Proof.
  assert (H1 : punctuation 33 = true) by reflexivity.
  assert (H2 : emoji_class party = true) by reflexivity.
  assert (H3 : [party] <> []) by discriminate.
  assert (H4 : forallb emoji_class [party] = true) by reflexivity.
  assert (H5 : forallb is_space [] = true) by reflexivity.
  assert (H6 : starts_with is_space (lit "Next") = false) by reflexivity.
  exact (remove_emojis_run_after_punctuation (lit "Done") [party] []
           (lit "Next") 33 party H1 H2 H3 H4 H5 H6).
Defined.

Lemma pass_length (repl : list ritem) (s : str) :
  (length (expand repl None) <= 1)%nat ->
  forall skip pv,
    (skip <= length s)%nat ->
    (length (sub_from emoji_before_newline repl skip pv s) + skip <= length s)%nat.
Proof.
  intros Hr. induction s as [|c s IH]; intros skip pv Hk.
  - simpl in Hk. assert (skip = O) by lia. subst. now rewrite pass_nil.
  - destruct skip as [|k].
    + cbn [sub_from].
      destruct (match_at emoji_before_newline pv (c :: s)) as [r|] eqn:M.
      * apply match_at_bounds in M as (k & -> & Hlen). simpl in Hlen.
        rewrite length_app. specialize (IH k (Some c)). simpl. lia.
      * specialize (IH O (Some c)). simpl. lia.
    + cbn [sub_from]. simpl in Hk. specialize (IH k (Some c)). simpl. lia.
Qed.

(** X6. The emoji remover never makes a text longer. *)
Theorem remove_emojis_length (text : str) :
  (length (remove_emojis text) <= length text)%nat.
Proof.
  rewrite remove_emojis_filter.
  pose proof (filter_length_le not_emoji
                (sub_from emoji_before_newline [Lit DOT] O None text)) as H1.
  pose proof (pass_length [Lit DOT] text (Nat.le_refl 1) O None) as H2.
  lia.
Qed.

(** ** The bracket/quote stripper *)

(** X7. The stripper works character by character: it distributes over
    concatenation, deletes a character of the two classes and keeps any
    other one. *)
Theorem remove_brackets_and_quotes_charwise :
  (forall a b, remove_brackets_and_quotes (a ++ b)
               = remove_brackets_and_quotes a ++ remove_brackets_and_quotes b)
  /\ (forall c, remove_brackets_and_quotes [c] = if delimiter c then [] else [c]).
Proof.
  split.
  - intros a b. rewrite !remove_brackets_and_quotes_filter. apply filter_app.
  - intros c. rewrite remove_brackets_and_quotes_filter. simpl.
    now destruct (delimiter c).
Qed.

(** X8. A text with no bracket, no ASCII quotation mark, no backtick and no
    guillemet is returned as it is; the typographic quotation marks U+2018,
    U+2019, U+201C and U+201D are not in the classes and stay. *)
Theorem remove_brackets_and_quotes_plain_text (text : str) :
  forallb (fun c => negb (delimiter c)) text = true ->
  remove_brackets_and_quotes text = text.
Proof.
  intros H. rewrite remove_brackets_and_quotes_filter. now apply filter_fixed.
Qed.

Lemma remove_brackets_and_quotes_plain_text_witness :
  remove_brackets_and_quotes ([0x201C] ++ lit "hi" ++ [0x201D; 0x2018; 0x2019])
  = [0x201C] ++ lit "hi" ++ [0x201D; 0x2018; 0x2019].
Proof.
  apply (remove_brackets_and_quotes_plain_text
           ([0x201C] ++ lit "hi" ++ [0x201D; 0x2018; 0x2019])).
  reflexivity.
Defined.

(** ** [re.sub] in general *)

Lemma sub_from_skip (r : regex) (repl : list ritem) (l s : str) :
  forall pv,
    sub_from r repl (length l) pv (l ++ s) = sub_from r repl O (prev_after pv l) s.
Proof.
  induction l as [|c l IH]; intros pv; [reflexivity|].
  cbn [length app sub_from prev_after]. apply IH.
Qed.

(** Text without a character that can begin a match is copied. *)
Lemma sub_from_copy (r : regex) (p : cls) (repl : list ritem) (l s : str) :
  triggered r p ->
  forallb (fun c => negb (p c)) l = true ->
  forall pv,
    sub_from r repl O pv (l ++ s) = l ++ sub_from r repl O (prev_after pv l) s.
Proof.
  intros T. induction l as [|c l IH]; intros Hl pv; [reflexivity|].
  simpl in Hl. apply andb_prop in Hl as [Hc Hl]. apply negb_true_iff in Hc.
  cbn [app sub_from prev_after].
  rewrite (T pv (c :: l ++ s)) by exact Hc. now rewrite IH.
Qed.

Lemma sub_from_nil (r : regex) (p : cls) (repl : list ritem) pv :
  triggered r p -> sub_from r repl O pv [] = [].
Proof. intros T. cbn [sub_from]. now rewrite (T pv []). Qed.

Lemma sub_untriggered (r : regex) (p : cls) (repl : list ritem) (l : str) :
  triggered r p ->
  forallb (fun c => negb (p c)) l = true ->
  sub r repl l = l.
Proof.
  intros T Hl. unfold sub.
  rewrite <- (app_nil_r l) at 1.
  rewrite (sub_from_copy r p repl l [] T Hl), (sub_from_nil r p repl _ T).
  apply app_nil_r.
Qed.

(** One match between two stretches of text that cannot begin a match. *)
Lemma sub_one_match (r : regex) (p : cls) (repl : list ritem)
      (pre m post : str) (g : option str) :
  triggered r p ->
  forallb (fun c => negb (p c)) pre = true ->
  forallb (fun c => negb (p c)) post = true ->
  m <> [] ->
  match_at r (prev_after None pre) (m ++ post) = Some (length m, g) ->
  sub r repl (pre ++ m ++ post) = pre ++ expand repl g ++ post.
Proof.
  intros T Hpre Hpost Hm M. unfold sub.
  rewrite (sub_from_copy r p repl pre (m ++ post) T Hpre).
  destruct m as [|c m]; [congruence|].
  cbn [app sub_from] in *. rewrite M. cbn [length].
  rewrite sub_from_skip.
  rewrite <- (app_nil_r post) at 1.
  rewrite (sub_from_copy r p repl post [] T Hpost), (sub_from_nil r p repl _ T).
  now rewrite app_nil_r.
Qed.

(** A repetition followed by a character outside its class takes the whole
    run when the continuation accepts there. *)
Lemma greedy_take (p : cls) (k : cursor -> option found) (l tl : str) (r : found) :
  forallb p l = true ->
  starts_with p tl = false ->
  forall pv n,
    k (Cursor (prev_after pv l) (n + length l) tl) = Some r ->
    greedy p k pv n (l ++ tl) = Some r.
Proof.
  intros Hl Ht. induction l as [|c l IH]; intros pv n K.
  - cbn [app length prev_after] in *. rewrite Nat.add_0_r in K.
    destruct tl as [|t tl]; [exact K|].
    simpl in Ht. cbn [greedy]. now rewrite Ht.
  - simpl in Hl. apply andb_prop in Hl as [Hc Hl].
    cbn [app greedy]. rewrite Hc.
    rewrite (IH Hl (Some c) (S n)); [reflexivity|].
    cbn [prev_after length] in K. now rewrite Nat.add_succ_r in K.
Qed.

Lemma firstn_length_app (l tl : str) : firstn (length l) (l ++ tl) = l.
Proof. induction l as [|c l IH]; simpl; [reflexivity|now rewrite IH]. Qed.

(** ** The markdown stripper *)

Lemma triggered_span2 (d : codepoint) : triggered (span2 d) (is_char d).
Proof.
  intros pv [|c s] H; [reflexivity|]. simpl in H.
  unfold match_at, span2. cbn [run rest]. now rewrite H.
Qed.

Lemma triggered_span1 (d : codepoint) : triggered (span1 d) (is_char d).
Proof.
  intros pv [|c s] H; [reflexivity|]. simpl in H.
  unfold match_at, span1. cbn [run rest]. now rewrite H.
Qed.

Lemma triggered_link : triggered link_pattern (is_char 91).
Proof.
  intros pv [|c s] H; [reflexivity|]. simpl in H.
  unfold match_at, link_pattern. cbn [run rest]. now rewrite H.
Qed.

Lemma triggered_header : triggered header_pattern (is_char 35).
Proof.
  intros pv s H. unfold match_at, header_pattern. cbn [run prev rest].
  destruct s as [|c s].
  - destruct pv as [c|]; [destruct (c =? NL)|]; reflexivity.
  - simpl in H. rewrite H.
    destruct pv as [c'|]; [destruct (c' =? NL)|]; reflexivity.
Qed.

Lemma not_char_self (d : codepoint) : not_char d d = false.
Proof. unfold not_char. now rewrite Z.eqb_refl. Qed.

Lemma is_char_self (d : codepoint) : is_char d d = true.
Proof. unfold is_char. apply Z.eqb_refl. Qed.

Lemma match_at_span2 (d : codepoint) (x post : str) pv :
  x <> [] ->
  forallb (not_char d) x = true ->
  match_at (span2 d) pv (d :: d :: x ++ d :: d :: post)
  = Some (length (d :: d :: x ++ [d; d]), Some x).
Proof.
  intros Hx Hf. destruct x as [|a x]; [congruence|].
  simpl in Hf. apply andb_prop in Hf as [Ha Hf].
  unfold match_at, span2. cbn [run rest pos app]. rewrite !is_char_self, Ha.
  rewrite (greedy_take (not_char d) _ x (d :: d :: post)
             (length (d :: d :: (a :: x) ++ [d; d]), Some (a :: x)) Hf).
  - reflexivity.
  - simpl. apply not_char_self.
  - cbn [pos rest]. rewrite !is_char_self. cbn [pos].
    replace (3 + length x - 2)%nat with (length (a :: x)) by (simpl; lia).
    pose proof (firstn_length_app (a :: x) (d :: d :: post)) as F.
    cbn [app] in F. rewrite F.
    simpl. rewrite length_app. simpl.
    replace (length x + 2)%nat with (S (S (length x))) by lia. reflexivity.
Qed.

Lemma match_at_span1 (d : codepoint) (x post : str) pv :
  x <> [] ->
  forallb (not_char d) x = true ->
  match_at (span1 d) pv (d :: x ++ d :: post)
  = Some (length (d :: x ++ [d]), Some x).
Proof.
  intros Hx Hf. destruct x as [|a x]; [congruence|].
  simpl in Hf. apply andb_prop in Hf as [Ha Hf].
  unfold match_at, span1. cbn [run rest pos app]. rewrite !is_char_self, Ha.
  rewrite (greedy_take (not_char d) _ x (d :: post)
             (length (d :: (a :: x) ++ [d]), Some (a :: x)) Hf).
  - reflexivity.
  - simpl. apply not_char_self.
  - cbn [pos rest]. rewrite !is_char_self. cbn [pos].
    replace (2 + length x - 1)%nat with (length (a :: x)) by (simpl; lia).
    pose proof (firstn_length_app (a :: x) (d :: post)) as F.
    cbn [app] in F. rewrite F.
    simpl. rewrite length_app. simpl.
    replace (length x + 1)%nat with (S (length x)) by lia. reflexivity.
Qed.

Lemma match_at_link (x y post : str) pv :
  x <> [] -> y <> [] ->
  forallb (not_char 93) x = true ->
  forallb (not_char 41) y = true ->
  match_at link_pattern pv (91 :: x ++ 93 :: 40 :: y ++ 41 :: post)
  = Some (length (91 :: x ++ 93 :: 40 :: y ++ [41]), Some x).
Proof.
  intros Hx Hy Hfx Hfy.
  destruct x as [|a x]; [congruence|]. destruct y as [|b y]; [congruence|].
  simpl in Hfx, Hfy.
  apply andb_prop in Hfx as [Ha Hfx]. apply andb_prop in Hfy as [Hb Hfy].
  unfold match_at, link_pattern. cbn [run rest pos app].
  rewrite !is_char_self, Ha.
  rewrite (greedy_take (not_char 93) _ x (93 :: 40 :: (b :: y) ++ 41 :: post)
             (length (91 :: (a :: x) ++ 93 :: 40 :: (b :: y) ++ [41]),
              Some (a :: x)) Hfx).
  - reflexivity.
  - reflexivity.
  - cbn [pos rest app]. rewrite !is_char_self. cbn [pos rest]. rewrite Hb.
    rewrite (greedy_take (not_char 41) _ y (41 :: post)
               (length (91 :: (a :: x) ++ 93 :: 40 :: (b :: y) ++ [41]),
                Some (a :: x)) Hfy).
    + reflexivity.
    + reflexivity.
    + cbn [pos rest]. rewrite !is_char_self. cbn [pos].
      replace (2 + length x - 1)%nat with (length (a :: x)) by (simpl; lia).
      pose proof (firstn_length_app (a :: x) (93 :: 40 :: b :: y ++ 41 :: post)) as F.
      cbn [app] in F. rewrite F.
      simpl. rewrite !length_app. simpl. rewrite ?length_app. simpl.
      replace (length x + S (S (S (length y + 1))))%nat
        with (S (S (S (S (length x + length y))))) by lia.
      reflexivity.
Qed.

Lemma forallb_weaken (p q : cls) (l : str) :
  (forall c, p c = true -> q c = true) ->
  forallb p l = true -> forallb q l = true.
Proof.
  intros W. induction l as [|c l IH]; simpl; [reflexivity|].
  intros H. apply andb_prop in H as [Hc Hl]. now rewrite (W c Hc), IH.
Qed.

Lemma plain_free (d : codepoint) (l : str) :
  markup d = true -> plain l = true -> forallb (not_char d) l = true.
Proof.
  intros Hd. apply forallb_weaken. intros c Hc. unfold not_char.
  destruct (Z.eqb_spec c d) as [->|]; [|reflexivity].
  rewrite Hd in Hc. discriminate.
Qed.

Lemma inline_free (d : codepoint) (l : str) :
  inline_markup d = true ->
  forallb (fun c => negb (inline_markup c)) l = true ->
  forallb (not_char d) l = true.
Proof.
  intros Hd. apply forallb_weaken. intros c Hc. unfold not_char.
  destruct (Z.eqb_spec c d) as [->|]; [|reflexivity].
  rewrite Hd in Hc. discriminate.
Qed.

Lemma space_free (d : codepoint) (l : str) :
  is_space d = false -> forallb is_space l = true -> forallb (not_char d) l = true.
Proof.
  intros Hd. apply forallb_weaken. intros c Hc. unfold not_char.
  destruct (Z.eqb_spec c d) as [->|]; [|reflexivity].
  rewrite Hd in Hc. discriminate.
Qed.

Lemma char_free (d e : codepoint) (l : str) :
  (e =? d) = false -> forallb (is_char e) l = true -> forallb (not_char d) l = true.
Proof.
  intros Hd. apply forallb_weaken. intros c Hc. unfold not_char, is_char in *.
  apply Z.eqb_eq in Hc. subst c. now rewrite Hd.
Qed.

Lemma plain_app (a b : str) : plain (a ++ b) = plain a && plain b.
Proof. apply forallb_app. Qed.

(** The four span patterns and the link pattern leave a text alone that has
    none of their first characters. *)
Lemma sub_free (r : regex) (d : codepoint) (repl : list ritem) (l : str) :
  triggered r (is_char d) ->
  forallb (not_char d) l = true ->
  sub r repl l = l.
Proof. intros T H. exact (sub_untriggered r (is_char d) repl l T H). Qed.

Lemma plain_passes (l : str) :
  plain l = true ->
  sub (span2 42) [Ref1] l = l /\ sub (span1 42) [Ref1] l = l
  /\ sub (span2 126) [Ref1] l = l /\ sub (span1 96) [Ref1] l = l
  /\ sub header_pattern [] l = l /\ sub link_pattern [Ref1] l = l.
Proof.
  intros H.
  repeat split;
    [ apply (sub_free _ 42 _ _ (triggered_span2 42))
    | apply (sub_free _ 42 _ _ (triggered_span1 42))
    | apply (sub_free _ 126 _ _ (triggered_span2 126))
    | apply (sub_free _ 96 _ _ (triggered_span1 96))
    | apply (sub_free _ 35 _ _ triggered_header)
    | apply (sub_free _ 91 _ _ triggered_link) ];
    (apply plain_free; [reflexivity|exact H]).
Qed.

Lemma match_at_header_off_line (pv : option codepoint) (s : str) :
  line_start pv = false -> match_at header_pattern pv s = None.
Proof.
  unfold match_at, header_pattern. cbn [run prev].
  destruct pv as [c|]; simpl; [|discriminate]. now intros ->.
Qed.

Lemma header_no_heading (repl : list ritem) (s : str) :
  forall pv, no_heading pv s = true -> sub_from header_pattern repl O pv s = s.
Proof.
  induction s as [|c s IH]; intros pv H.
  - apply (sub_from_nil _ _ _ _ triggered_header).
  - cbn [no_heading] in H. apply andb_prop in H as [Hc Hs].
    apply negb_true_iff, andb_false_iff in Hc.
    cbn [sub_from].
    assert (M : match_at header_pattern pv (c :: s) = None).
    { destruct Hc as [Hc|Hc].
      - now apply match_at_header_off_line.
      - apply triggered_header. exact Hc. }
    rewrite M. now rewrite IH.
Qed.

Lemma remove_markdown_id (text : str) :
  forallb (fun c => negb (inline_markup c)) text = true ->
  no_heading None text = true ->
  remove_markdown text = text.
Proof.
  intros Hi Hh. unfold remove_markdown. cbv zeta.
  rewrite (sub_free _ 42 _ _ (triggered_span2 42))
    by (apply inline_free; [reflexivity|exact Hi]).
  rewrite (sub_free _ 42 _ _ (triggered_span1 42))
    by (apply inline_free; [reflexivity|exact Hi]).
  rewrite (sub_free _ 126 _ _ (triggered_span2 126))
    by (apply inline_free; [reflexivity|exact Hi]).
  rewrite (sub_free _ 96 _ _ (triggered_span1 96))
    by (apply inline_free; [reflexivity|exact Hi]).
  unfold sub at 2. rewrite header_no_heading by exact Hh.
  apply (sub_free _ 91 _ _ triggered_link).
  apply inline_free; [reflexivity|exact Hi].
Qed.

(** X9. A text with no asterisk, tilde, backtick or opening square bracket,
    and with no hash at the start of a line, is returned as it is; a hash
    inside a line is not a heading marker. *)
Theorem remove_markdown_unmarked (text : str) :
  forallb (fun c => negb (inline_markup c)) text = true ->
  no_heading None text = true ->
  remove_markdown text = text.
Proof. apply remove_markdown_id. Qed.

Lemma remove_markdown_unmarked_witness :
  remove_markdown (lit "a # b, issue #12" ++ [NL] ++ lit "c ## d")
  = lit "a # b, issue #12" ++ [NL] ++ lit "c ## d".
Proof.
  apply (remove_markdown_unmarked (lit "a # b, issue #12" ++ [NL] ++ lit "c ## d"));
    reflexivity.
Defined.

Lemma expand_ref1 (x : str) : expand [Ref1] (Some x) = x.
Proof. simpl. apply app_nil_r. Qed.

Lemma sub_span2_one (d : codepoint) (pre x post : str) :
  forallb (not_char d) pre = true ->
  forallb (not_char d) x = true ->
  x <> [] ->
  forallb (not_char d) post = true ->
  sub (span2 d) [Ref1] (pre ++ (d :: d :: x ++ [d; d]) ++ post) = pre ++ x ++ post.
Proof.
  intros Hpre Hx Hne Hpost.
  rewrite (sub_one_match (span2 d) (is_char d) [Ref1] pre (d :: d :: x ++ [d; d])
             post (Some x) (triggered_span2 d) Hpre Hpost).
  - now rewrite expand_ref1.
  - discriminate.
  - cbn [app]. rewrite <- app_assoc. cbn [app]. now apply match_at_span2.
Qed.

Lemma sub_span1_one (d : codepoint) (pre x post : str) :
  forallb (not_char d) pre = true ->
  forallb (not_char d) x = true ->
  x <> [] ->
  forallb (not_char d) post = true ->
  sub (span1 d) [Ref1] (pre ++ (d :: x ++ [d]) ++ post) = pre ++ x ++ post.
Proof.
  intros Hpre Hx Hne Hpost.
  rewrite (sub_one_match (span1 d) (is_char d) [Ref1] pre (d :: x ++ [d])
             post (Some x) (triggered_span1 d) Hpre Hpost).
  - now rewrite expand_ref1.
  - discriminate.
  - cbn [app]. rewrite <- app_assoc. cbn [app]. now apply match_at_span1.
Qed.

Lemma sub_link_one (pre x y post : str) :
  forallb (not_char 91) pre = true ->
  forallb (not_char 93) x = true -> x <> [] ->
  forallb (not_char 41) y = true -> y <> [] ->
  forallb (not_char 91) post = true ->
  sub link_pattern [Ref1] (pre ++ (91 :: x ++ 93 :: 40 :: y ++ [41]) ++ post)
  = pre ++ x ++ post.
Proof.
  intros Hpre Hx Hxn Hy Hyn Hpost.
  rewrite <- (expand_ref1 x) at 2.
  apply (sub_one_match link_pattern (is_char 91) [Ref1] pre
           (91 :: x ++ 93 :: 40 :: y ++ [41]) post (Some x)
           triggered_link Hpre Hpost).
  - discriminate.
  - cbn [app]. rewrite <- app_assoc. cbn [app]. rewrite <- app_assoc. cbn [app].
    now apply match_at_link.
Qed.

(** Three pieces of plain text around a marker. *)
Lemma plain3 (pre x post : str) :
  plain pre = true -> plain x = true -> plain post = true ->
  plain (pre ++ x ++ post) = true.
Proof. intros H1 H2 H3. now rewrite !plain_app, H1, H2, H3. Qed.

Lemma remove_markdown_plain (l : str) :
  plain l = true -> remove_markdown l = l.
Proof.
  intros H. destruct (plain_passes l H) as (E1 & E2 & E3 & E4 & E5 & E6).
  unfold remove_markdown. cbv zeta. now rewrite E1, E2, E3, E4, E5, E6.
Qed.

(** X10. Bold: in a text that has no markup characters otherwise, [**X**]
    becomes [X]. *)
Theorem remove_markdown_bold (pre x post : str) :
  plain pre = true -> plain x = true -> x <> [] -> plain post = true ->
  remove_markdown (pre ++ (lit "**" ++ x ++ lit "**") ++ post) = pre ++ x ++ post.
Proof.
  intros Hpre Hx Hne Hpost.
  pose proof (plain3 pre x post Hpre Hx Hpost) as Hall.
  destruct (plain_passes _ Hall) as (_ & E2 & E3 & E4 & E5 & E6).
  unfold remove_markdown. cbv zeta.
  change (lit "**" ++ x ++ lit "**") with (42 :: 42 :: x ++ [42; 42]).
  rewrite sub_span2_one; try (apply plain_free; [reflexivity|assumption]); auto.
  now rewrite E2, E3, E4, E5, E6.
Qed.

Lemma remove_markdown_bold_witness :
  remove_markdown (lit "say " ++ (lit "**" ++ lit "Hello there" ++ lit "**") ++ lit " now")
  = lit "say Hello there now".
Proof.
  apply (remove_markdown_bold (lit "say ") (lit "Hello there") (lit " now"));
    try reflexivity.
  discriminate.
Defined.

Lemma match_at_span2_single (d a : codepoint) (s : str) pv :
  (a =? d) && starts_with (is_char d) s = false ->
  match_at (span2 d) pv (a :: s) = None.
Proof.
  intros H. unfold match_at, span2. cbn [run rest]. unfold is_char in *.
  destruct (a =? d); [|reflexivity]. simpl in H.
  destruct s as [|b s]; [reflexivity|]. simpl in H. cbn [rest]. now rewrite H.
Qed.

(** The doubled-marker pattern leaves single markers alone. *)
Lemma sub_span2_no_double (d : codepoint) (repl : list ritem) (s : str) :
  no_double d s = true -> forall pv, sub_from (span2 d) repl O pv s = s.
Proof.
  induction s as [|a s IH]; intros H pv.
  - apply (sub_from_nil _ _ _ _ (triggered_span2 d)).
  - cbn [no_double] in H. apply andb_prop in H as [Ha Hs].
    apply negb_true_iff in Ha.
    cbn [sub_from]. rewrite match_at_span2_single by exact Ha. now rewrite IH.
Qed.

Lemma no_double_cons (d a : codepoint) (s : str) :
  no_double d (a :: s)
  = negb ((a =? d) && starts_with (is_char d) s) && no_double d s.
Proof. reflexivity. Qed.

Lemma no_double_app_free (d : codepoint) (l s : str) :
  forallb (not_char d) l = true -> no_double d (l ++ s) = no_double d s.
Proof.
  induction l as [|c l IH]; intros H; [reflexivity|].
  simpl in H. apply andb_prop in H as [Hc Hl]. unfold not_char in Hc.
  apply negb_true_iff in Hc. cbn [app no_double]. rewrite Hc. simpl.
  now apply IH.
Qed.

Lemma no_double_single (d : codepoint) (s : str) :
  forallb (not_char d) s = true -> no_double d (d :: s) = true.
Proof.
  intros H. cbn [no_double].
  rewrite <- (app_nil_r s) at 2. rewrite (no_double_app_free d s [] H).
  destruct s as [|c s]; [now rewrite Z.eqb_refl|].
  simpl in H. apply andb_prop in H as [Hc _]. unfold not_char in Hc.
  apply negb_true_iff in Hc. simpl. unfold is_char. now rewrite Hc, andb_false_r.
Qed.

Lemma no_double_span1 (d : codepoint) (pre x post : str) :
  forallb (not_char d) pre = true ->
  forallb (not_char d) x = true -> x <> [] ->
  forallb (not_char d) post = true ->
  no_double d (pre ++ (d :: x ++ [d]) ++ post) = true.
Proof.
  intros Hpre Hx Hne Hpost.
  rewrite (no_double_app_free d pre _ Hpre).
  cbn [app]. rewrite <- app_assoc. cbn [app].
  destruct x as [|a x]; [congruence|].
  pose proof Hx as Hx'. simpl in Hx'. apply andb_prop in Hx' as [Ha _].
  unfold not_char in Ha. apply negb_true_iff in Ha.
  cbn [app]. rewrite no_double_cons. cbn [starts_with]. unfold is_char at 1.
  rewrite Ha, andb_false_r. cbn [negb andb].
  change (a :: x ++ d :: post) with ((a :: x) ++ d :: post).
  rewrite (no_double_app_free d (a :: x) _ Hx).
  now apply no_double_single.
Qed.

(** X11. Italic: in a text that has no markup characters otherwise, [*X*]
    becomes [X]; the pattern for bold does not touch the single asterisks. *)
Theorem remove_markdown_italic (pre x post : str) :
  plain pre = true -> plain x = true -> x <> [] -> plain post = true ->
  remove_markdown (pre ++ (lit "*" ++ x ++ lit "*") ++ post) = pre ++ x ++ post.
Proof.
  intros Hpre Hx Hne Hpost.
  pose proof (plain3 pre x post Hpre Hx Hpost) as Hall.
  destruct (plain_passes _ Hall) as (_ & _ & E3 & E4 & E5 & E6).
  unfold remove_markdown. cbv zeta.
  change (lit "*" ++ x ++ lit "*") with (42 :: x ++ [42]).
  unfold sub at 6.
  rewrite sub_span2_no_double
    by (apply no_double_span1; try (apply plain_free; [reflexivity|assumption]); auto).
  rewrite sub_span1_one; try (apply plain_free; [reflexivity|assumption]); auto.
  now rewrite E3, E4, E5, E6.
Qed.

Lemma remove_markdown_italic_witness :
  remove_markdown (lit "a " ++ (lit "*" ++ lit "very" ++ lit "*") ++ lit " good day")
  = lit "a very good day".
Proof.
  apply (remove_markdown_italic (lit "a ") (lit "very") (lit " good day"));
    try reflexivity.
  discriminate.
Defined.

Lemma free_around (e : codepoint) (pre m post : str) :
  markup e = true ->
  plain pre = true -> forallb (not_char e) m = true -> plain post = true ->
  forallb (not_char e) (pre ++ m ++ post) = true.
Proof.
  intros He Hpre Hm Hpost. rewrite !forallb_app, Hm.
  now rewrite (plain_free e pre He Hpre), (plain_free e post He Hpost).
Qed.

Lemma free_wrapped (e : codepoint) (a b x : str) :
  markup e = true ->
  forallb (not_char e) a = true -> forallb (not_char e) b = true ->
  plain x = true ->
  forallb (not_char e) (a ++ x ++ b) = true.
Proof.
  intros He Ha Hb Hx. rewrite !forallb_app, Ha, Hb.
  now rewrite (plain_free e x He Hx).
Qed.

(** X12. Strikethrough: in a text that has no markup characters otherwise,
    [~~X~~] becomes [X]. *)
Theorem remove_markdown_strikethrough (pre x post : str) :
  plain pre = true -> plain x = true -> x <> [] -> plain post = true ->
  remove_markdown (pre ++ (lit "~~" ++ x ++ lit "~~") ++ post) = pre ++ x ++ post.
Proof.
  intros Hpre Hx Hne Hpost.
  pose proof (plain3 pre x post Hpre Hx Hpost) as Hall.
  destruct (plain_passes _ Hall) as (_ & _ & _ & E4 & E5 & E6).
  assert (F : forallb (not_char 42) (pre ++ (lit "~~" ++ x ++ lit "~~") ++ post) = true).
  { apply free_around; auto. apply free_wrapped; auto. }
  unfold remove_markdown. cbv zeta.
  rewrite (sub_free _ 42 _ _ (triggered_span2 42) F).
  rewrite (sub_free _ 42 _ _ (triggered_span1 42) F).
  change (lit "~~" ++ x ++ lit "~~") with (126 :: 126 :: x ++ [126; 126]).
  rewrite sub_span2_one; try (apply plain_free; [reflexivity|assumption]); auto.
  now rewrite E4, E5, E6.
Qed.

Lemma remove_markdown_strikethrough_witness :
  remove_markdown (lit "was " ++ (lit "~~" ++ lit "old" ++ lit "~~") ++ lit " new")
  = lit "was old new".
Proof.
  apply (remove_markdown_strikethrough (lit "was ") (lit "old") (lit " new"));
    try reflexivity.
  discriminate.
Defined.

(** X13. Inline code: in a text that has no markup characters otherwise, a
    span between two backticks loses the backticks. *)
Theorem remove_markdown_code (pre x post : str) :
  plain pre = true -> plain x = true -> x <> [] -> plain post = true ->
  remove_markdown (pre ++ (lit "`" ++ x ++ lit "`") ++ post) = pre ++ x ++ post.
Proof.
  intros Hpre Hx Hne Hpost.
  pose proof (plain3 pre x post Hpre Hx Hpost) as Hall.
  destruct (plain_passes _ Hall) as (_ & _ & _ & _ & E5 & E6).
  assert (F1 : forallb (not_char 42) (pre ++ (lit "`" ++ x ++ lit "`") ++ post) = true).
  { apply free_around; auto. apply free_wrapped; auto. }
  assert (F2 : forallb (not_char 126) (pre ++ (lit "`" ++ x ++ lit "`") ++ post) = true).
  { apply free_around; auto. apply free_wrapped; auto. }
  unfold remove_markdown. cbv zeta.
  rewrite (sub_free _ 42 _ _ (triggered_span2 42) F1).
  rewrite (sub_free _ 42 _ _ (triggered_span1 42) F1).
  rewrite (sub_free _ 126 _ _ (triggered_span2 126) F2).
  change (lit "`" ++ x ++ lit "`") with (96 :: x ++ [96]).
  rewrite sub_span1_one; try (apply plain_free; [reflexivity|assumption]); auto.
  now rewrite E5, E6.
Qed.

Lemma remove_markdown_code_witness :
  remove_markdown (lit "run " ++ (lit "`" ++ lit "make all" ++ lit "`") ++ lit " twice")
  = lit "run make all twice".
Proof.
  apply (remove_markdown_code (lit "run ") (lit "make all") (lit " twice"));
    try reflexivity.
  discriminate.
Defined.

Lemma free_link (e : codepoint) (x y : str) :
  markup e = true -> (e =? 91) = false ->
  plain x = true -> plain y = true ->
  forallb (not_char e) (91 :: x ++ 93 :: 40 :: y ++ [41]) = true.
Proof.
  intros He H91 Hx Hy.
  assert (N : forall c, markup c = false -> not_char e c = true).
  { intros c Hc. unfold not_char. destruct (Z.eqb_spec c e) as [->|]; [|reflexivity].
    congruence. }
  cbn [forallb]. rewrite forallb_app. cbn [forallb]. rewrite forallb_app.
  cbn [forallb].
  rewrite (plain_free e x He Hx), (plain_free e y He Hy).
  rewrite (N 93 eq_refl), (N 40 eq_refl), (N 41 eq_refl).
  unfold not_char. rewrite Z.eqb_sym, H91. reflexivity.
Qed.

(** X14. Links: in a text that has no markup characters otherwise,
    [[X](Y)] becomes [X] and the target [Y] is dropped. *)
Theorem remove_markdown_link_text (pre x y post : str) :
  plain pre = true ->
  plain x = true -> forallb (not_char 93) x = true -> x <> [] ->
  plain y = true -> forallb (not_char 41) y = true -> y <> [] ->
  plain post = true ->
  remove_markdown (pre ++ (lit "[" ++ x ++ lit "](" ++ y ++ lit ")") ++ post)
  = pre ++ x ++ post.
Proof.
  intros Hpre Hx Hx93 Hxn Hy Hy41 Hyn Hpost.
  pose proof (plain3 pre x post Hpre Hx Hpost) as Hall.
  change (lit "[" ++ x ++ lit "](" ++ y ++ lit ")")
    with (91 :: x ++ 93 :: 40 :: y ++ [41]).
  assert (F : forall e, markup e = true -> (e =? 91) = false ->
     forallb (not_char e) (pre ++ (91 :: x ++ 93 :: 40 :: y ++ [41]) ++ post) = true).
  { intros e He H91. apply free_around; auto. now apply free_link. }
  unfold remove_markdown. cbv zeta.
  rewrite (sub_free _ 42 _ _ (triggered_span2 42) (F 42 eq_refl eq_refl)).
  rewrite (sub_free _ 42 _ _ (triggered_span1 42) (F 42 eq_refl eq_refl)).
  rewrite (sub_free _ 126 _ _ (triggered_span2 126) (F 126 eq_refl eq_refl)).
  rewrite (sub_free _ 96 _ _ (triggered_span1 96) (F 96 eq_refl eq_refl)).
  rewrite (sub_free _ 35 _ _ triggered_header (F 35 eq_refl eq_refl)).
  apply sub_link_one; auto; apply plain_free; auto.
Qed.

Lemma remove_markdown_link_text_witness :
  remove_markdown (lit "see " ++ (lit "[" ++ lit "Docs" ++ lit "](" ++ lit "https://x.com"
                                  ++ lit ")") ++ lit " please")
  = lit "see Docs please".
Proof.
  apply (remove_markdown_link_text (lit "see ") (lit "Docs") (lit "https://x.com")
           (lit " please")); try reflexivity; discriminate.
Defined.

Lemma match_at_header (hs ws post : str) pv :
  line_start pv = true ->
  hs <> [] -> forallb (is_char 35) hs = true ->
  ws <> [] -> forallb is_space ws = true ->
  starts_with is_space post = false ->
  match_at header_pattern pv ((hs ++ ws) ++ post) = Some (length (hs ++ ws), None).
Proof.
  intros Hpv Hhn Hh Hwn Hw Hpost.
  destruct hs as [|h hs]; [congruence|]. destruct ws as [|w ws]; [congruence|].
  simpl in Hh, Hw.
  apply andb_prop in Hh as [Hh0 Hh]. apply andb_prop in Hw as [Hw0 Hw].
  unfold match_at, header_pattern. cbn [run prev rest pos].
  rewrite <- app_assoc. cbn [app].
  assert (G : greedy (is_char 35)
                (fun cur' => run (Plus is_space) cur' None
                               (fun cur g => Some (pos cur, g)))
                (Some h) 1 (hs ++ w :: ws ++ post)
              = Some (length ((h :: hs) ++ w :: ws), None)).
  { apply (greedy_take (is_char 35) _ hs (w :: ws ++ post) _ Hh).
    - simpl. unfold is_char. destruct (Z.eqb_spec w 35) as [->|]; [|reflexivity].
      discriminate Hw0.
    - cbn [run rest pos]. rewrite Hw0.
      apply (greedy_take is_space _ ws post _ Hw Hpost).
      cbn [pos].
      replace (length ((h :: hs) ++ w :: ws))
        with (S (1 + length hs) + length ws)%nat; [reflexivity|].
      rewrite length_app. simpl. lia. }
  rewrite Hh0.
  destruct pv as [c|].
  - simpl in Hpv. rewrite Hpv. exact G.
  - exact G.
Qed.

(** X15. Headings: one or more hashes at the start of a line, followed by
    whitespace that ends before the next character, are deleted together with
    that whitespace; the rest of the text has no markup characters. *)
Theorem remove_markdown_heading (pre hs ws post : str) :
  plain pre = true -> line_start (prev_after None pre) = true ->
  hs <> [] -> forallb (is_char 35) hs = true ->
  ws <> [] -> forallb is_space ws = true ->
  plain post = true -> starts_with is_space post = false ->
  remove_markdown (pre ++ (hs ++ ws) ++ post) = pre ++ post.
Proof.
  intros Hpre Hline Hhn Hh Hwn Hw Hpost Hsp.
  assert (Hall : plain (pre ++ post) = true) by now rewrite plain_app, Hpre, Hpost.
  destruct (plain_passes _ Hall) as (_ & _ & _ & _ & _ & E6).
  assert (F : forall e, markup e = true -> (35 =? e) = false -> is_space e = false ->
                forallb (not_char e) (pre ++ (hs ++ ws) ++ post) = true).
  { intros e He H35 Hs. apply free_around; auto. rewrite forallb_app.
    now rewrite (char_free e 35 hs H35 Hh), (space_free e ws Hs Hw). }
  unfold remove_markdown. cbv zeta.
  rewrite (sub_free _ 42 _ _ (triggered_span2 42) (F 42 eq_refl eq_refl eq_refl)).
  rewrite (sub_free _ 42 _ _ (triggered_span1 42) (F 42 eq_refl eq_refl eq_refl)).
  rewrite (sub_free _ 126 _ _ (triggered_span2 126) (F 126 eq_refl eq_refl eq_refl)).
  rewrite (sub_free _ 96 _ _ (triggered_span1 96) (F 96 eq_refl eq_refl eq_refl)).
  assert (E5 : sub header_pattern [] (pre ++ (hs ++ ws) ++ post) = pre ++ post).
  { apply (sub_one_match header_pattern (is_char 35) [] pre (hs ++ ws) post None
             triggered_header).
    - apply plain_free; auto.
    - apply plain_free; auto.
    - destruct hs; [congruence|discriminate].
    - now apply match_at_header. }
  rewrite E5. exact E6.
Qed.

Lemma remove_markdown_heading_witness :
  remove_markdown (lit "Intro" ++ [NL] ++ lit "##  Title" ++ [NL] ++ lit "Body")
  = lit "Intro" ++ [NL] ++ lit "Title" ++ [NL] ++ lit "Body".
Proof.
  apply (remove_markdown_heading (lit "Intro" ++ [NL]) (lit "##") (lit "  ")
           (lit "Title" ++ [NL] ++ lit "Body")); try reflexivity; discriminate.
Defined.

(** X16. The markdown stripper makes one pass and is not idempotent: on
    "****x****" the first application leaves "*x*", which a second one turns
    into "x". *)
Theorem remove_markdown_not_idempotent :
  exists text, remove_markdown (remove_markdown text) <> remove_markdown text.
Proof.
  exists (lit "****x****"). vm_compute. discriminate.
Qed.

(** ** No filter invents characters *)

Lemma forallb_firstn (q : cls) (n : nat) (l : str) :
  forallb q l = true -> forallb q (firstn n l) = true.
Proof.
  revert l. induction n as [|n IH]; intros [|c l] H; try reflexivity.
  simpl in *. apply andb_prop in H as [Hc Hl]. now rewrite Hc, IH.
Qed.

Lemma run_kept (q : cls) (r : regex) :
  forall cur g k res,
    kept q cur g ->
    run r cur g k = Some res ->
    exists cur' g', kept q cur' g' /\ k cur' g' = Some res.
Proof.
  induction r as [|p|r1 IH1 r2 IH2|p|p|r1 IH1|r1 IH1|p|];
    intros cur g k res [Hr Hg] H; cbn [run] in H.
  - exists cur, g. now split.
  - destruct (rest cur) as [|c s] eqn:E; [discriminate|].
    destruct (p c); [|discriminate].
    simpl in Hr. apply andb_prop in Hr as [_ Hr].
    eexists _, g. split; [|exact H]. now split.
  - apply (IH1 _ _ _ _ (conj Hr Hg)) in H as (cur1 & g1 & K1 & H).
    now apply (IH2 _ _ _ _ K1) in H.
  - destruct (rest cur) as [|c s] eqn:E; [discriminate|].
    destruct (p c); [|discriminate].
    apply greedy_sound in H as (pv' & l1 & l2 & -> & _ & H).
    simpl in Hr. apply andb_prop in Hr as [_ Hr].
    rewrite forallb_app in Hr. apply andb_prop in Hr as [_ Hr].
    eexists _, g. split; [|exact H]. now split.
  - apply greedy_sound in H as (pv' & l1 & l2 & E & _ & H).
    rewrite E, forallb_app in Hr. apply andb_prop in Hr as [_ Hr].
    eexists _, g. split; [|exact H]. now split.
  - apply (IH1 _ _ _ _ (conj Hr Hg)) in H as (cur1 & g1 & [K1 _] & H).
    eexists cur1, _. split; [|exact H]. split; [exact K1|].
    now apply forallb_firstn.
  - destruct (run r1 cur g (fun _ _ => Some (O, None))); [|discriminate].
    exists cur, g. now split.
  - exists cur, g. split; [now split|].
    destruct (prev cur) as [c|]; [destruct (p c); [discriminate|]|]; exact H.
  - exists cur, g. split; [now split|].
    destruct (prev cur) as [c|]; [destruct (c =? NL); [|discriminate]|]; exact H.
Qed.

Lemma match_at_kept (q : cls) (r : regex) pv (s : str) (n : nat) (g : option str) :
  forallb q s = true ->
  match_at r pv s = Some (n, g) ->
  match g with Some t => forallb q t = true | None => True end.
Proof.
  intros Hs H. unfold match_at in H.
  assert (K0 : kept q (Cursor pv O s) None) by (split; [exact Hs|exact I]).
  apply (run_kept q r _ _ _ _ K0) in H as (cur' & g' & [_ K] & H).
  inversion H. now subst.
Qed.

Lemma expand_kept (q : cls) (repl : list ritem) (g : option str) :
  forallb q (repl_lits repl) = true ->
  match g with Some t => forallb q t = true | None => True end ->
  forallb q (expand repl g) = true.
Proof.
  intros Hl Hg. induction repl as [|i repl IH]; [reflexivity|].
  cbn [expand flat_map repl_lits] in *.
  rewrite forallb_app in *. apply andb_prop in Hl as [Hi Hl].
  fold (expand repl g). rewrite (IH Hl), andb_true_r.
  destruct i as [c|]; [exact Hi|]. destruct g; [exact Hg|reflexivity].
Qed.

(** A class that holds of the text and of the literal characters of the
    template holds of the result of [re.sub]. *)
Lemma sub_from_kept (q : cls) (r : regex) (repl : list ritem) (s : str) :
  forallb q (repl_lits repl) = true ->
  forallb q s = true ->
  forall skip pv, forallb q (sub_from r repl skip pv s) = true.
Proof.
  intros Hl. induction s as [|c s IH]; intros Hs skip pv.
  - destruct skip; [|reflexivity]. cbn [sub_from].
    destruct (match_at r pv []) as [[n g]|] eqn:M; [|reflexivity].
    apply expand_kept; [exact Hl|]. exact (match_at_kept q r pv [] n g Hs M).
  - pose proof Hs as Hs'. simpl in Hs'. apply andb_prop in Hs' as [Hc Hs'].
    destruct skip as [|k]; cbn [sub_from]; [|now apply IH].
    destruct (match_at r pv (c :: s)) as [[n g]|] eqn:M.
    + pose proof (expand_kept q repl g Hl (match_at_kept q r pv _ n g Hs M)) as He.
      destruct n as [|k]; rewrite forallb_app, He; simpl.
      * now rewrite Hc, IH.
      * now apply IH.
    + simpl. now rewrite Hc, IH.
Qed.

Lemma sub_kept (q : cls) (r : regex) (repl : list ritem) (s : str) :
  forallb q (repl_lits repl) = true ->
  forallb q s = true -> forallb q (sub r repl s) = true.
Proof. intros Hl Hs. now apply sub_from_kept. Qed.

Lemma remove_markdown_kept (q : cls) (text : str) :
  forallb q text = true -> forallb q (remove_markdown text) = true.
Proof.
  intros H. unfold remove_markdown. cbv zeta.
  repeat (apply sub_kept; [reflexivity|]). exact H.
Qed.

Lemma remove_brackets_and_quotes_kept (q : cls) (text : str) :
  forallb q text = true -> forallb q (remove_brackets_and_quotes text) = true.
Proof.
  intros H. unfold remove_brackets_and_quotes.
  repeat (apply sub_kept; [reflexivity|]). exact H.
Qed.

Lemma replace_from_kept (q : cls) (old new : str) (s : str) :
  forallb q new = true ->
  forallb q s = true ->
  forall skip, forallb q (replace_from old new skip s) = true.
Proof.
  intros Hn. induction s as [|c s IH]; intros Hs skip.
  - destruct skip, old; try reflexivity. exact Hn.
  - simpl in Hs. apply andb_prop in Hs as [Hc Hs].
    destruct skip as [|k]; cbn [replace_from]; [|now apply IH].
    destruct (is_prefix old (c :: s)).
    + destruct old as [|a old]; rewrite forallb_app, Hn; simpl.
      * now rewrite Hc, IH.
      * now apply IH.
    + simpl. now rewrite Hc, IH.
Qed.

Lemma squeeze_kept (q p : cls) (w s : str) :
  forallb q w = true ->
  forallb q s = true ->
  forall b, forallb q (squeeze p w b s) = true.
Proof.
  intros Hw. induction s as [|c s IH]; intros Hs b; [reflexivity|].
  simpl in Hs. apply andb_prop in Hs as [Hc Hs]. cbn [squeeze].
  destruct (p c).
  - destruct b; [now apply IH|]. rewrite forallb_app, Hw. now apply IH.
  - simpl. now rewrite Hc, IH.
Qed.

Lemma str_strip_kept (q : cls) (s : str) :
  forallb q s = true -> forallb q (str_strip s) = true.
Proof.
  intros H. unfold str_strip.
  destruct (lstrip_suffix s) as (l1 & E1).
  destruct (rstrip_prefix (lstrip s)) as (l2 & E2).
  rewrite E1, forallb_app in H. apply andb_prop in H as [_ H].
  rewrite E2, forallb_app in H. now apply andb_prop in H as [H _].
Qed.

Lemma normalize_pauses_kept (q : cls) (text : str) :
  q COMMA = true -> q SPACE = true ->
  forallb q text = true -> forallb q (normalize_pauses text) = true.
Proof.
  intros Hc Hs H. rewrite normalize_pauses_eq.
  apply str_strip_kept, squeeze_kept; [cbn [forallb]; now rewrite Hs|].
  apply replace_from_kept; [|exact H].
  rewrite lit_comma. cbn [forallb]. now rewrite Hc.
Qed.

(** ** The markdown stripper only deletes *)

Lemma subseq_nil_l (l : str) : subseq [] l.
Proof. induction l; constructor; assumption. Qed.

Lemma subseq_refl (l : str) : subseq l l.
Proof. induction l; constructor; assumption. Qed.

Lemma subseq_app (a a' b b' : str) :
  subseq a a' -> subseq b b' -> subseq (a ++ b) (a' ++ b').
Proof.
  intros Ha Hb. induction Ha; cbn [app]; [exact Hb| |]; constructor; assumption.
Qed.

Lemma subseq_trans (a b c : str) : subseq a b -> subseq b c -> subseq a c.
Proof.
  intros Hab Hbc. revert a Hab.
  induction Hbc as [|x b c Hbc IH|x b c Hbc IH]; intros a Hab.
  - exact Hab.
  - constructor. now apply IH.
  - inversion Hab; subst.
    + apply subseq_skip. now apply IH.
    + apply subseq_keep. now apply IH.
Qed.

Lemma subseq_length (a b : str) : subseq a b -> (length a <= length b)%nat.
Proof. induction 1; simpl; lia. Qed.

(** A stretch of a text that ends within its first [n] characters is a
    subsequence of these. *)
Lemma stretch_subseq (s : str) :
  forall a b n, (b <= n)%nat ->
    subseq (firstn (b - a) (skipn a s)) (firstn n s).
Proof.
  induction s as [|c s IH]; intros a b n Hb.
  - rewrite skipn_nil, !firstn_nil. constructor.
  - destruct a as [|a].
    + rewrite Nat.sub_0_r. cbn [skipn].
      destruct b as [|b]; [apply subseq_nil_l|].
      destruct n as [|n]; [lia|]. cbn [firstn]. apply subseq_keep.
      specialize (IH O b n). rewrite Nat.sub_0_r in IH. cbn [skipn] in IH.
      apply IH. lia.
    + cbn [skipn]. destruct n as [|n].
      * assert (b = O) by lia. subst. apply subseq_nil_l.
      * cbn [firstn]. apply subseq_skip.
        replace (b - S a)%nat with (Nat.pred b - a)%nat by lia.
        apply IH. lia.
Qed.

Lemma skipn_split (n : nat) (l l1 l2 : str) :
  skipn n l = l1 ++ l2 -> skipn (n + length l1) l = l2.
Proof.
  intros H. rewrite Nat.add_comm, <- skipn_skipn, H. clear H.
  induction l1 as [|c l1 IH]; [reflexivity|exact IH].
Qed.

Lemma stretch_later (s0 : str) (p p' : nat) (g : option str) :
  (p <= p')%nat -> stretch_before s0 p g -> stretch_before s0 p' g.
Proof.
  intros Hp. destruct g as [t|]; [|auto].
  intros (a & b & Hab & Hb & E). exists a, b. repeat split; [exact Hab|lia|exact E].
Qed.

(** Along a match the cursor stays in step with the text and group 1 is a
    stretch of what has been passed. *)
Lemma run_stretch (s0 : str) (r : regex) :
  forall cur g k res,
    at_offset s0 cur ->
    stretch_before s0 (pos cur) g ->
    run r cur g k = Some res ->
    exists cur' g',
      at_offset s0 cur' /\ stretch_before s0 (pos cur') g'
      /\ (pos cur <= pos cur')%nat /\ k cur' g' = Some res.
Proof.
  induction r as [|p|r1 IH1 r2 IH2|p|p|r1 IH1|r1 IH1|p|];
    intros cur g k res Hc Hg H; cbn [run] in H.
  - exists cur, g. auto.
  - destruct (rest cur) as [|c s] eqn:E; [discriminate|].
    destruct (p c); [|discriminate].
    eexists _, g. split; [|split; [|split; [|exact H]]]; cbn [pos rest].
    + unfold at_offset in *. cbn [pos rest]. rewrite E in Hc. symmetry in Hc.
      apply (skipn_split _ _ [c] s) in Hc. simpl in Hc.
      now rewrite Nat.add_1_r in Hc.
    + apply (stretch_later s0 (pos cur)); [lia|exact Hg].
    + lia.
  - apply (IH1 _ _ _ _ Hc Hg) in H as (cur1 & g1 & Hc1 & Hg1 & Hp1 & H).
    apply (IH2 _ _ _ _ Hc1 Hg1) in H as (cur2 & g2 & Hc2 & Hg2 & Hp2 & H).
    exists cur2, g2. repeat split; auto. lia.
  - destruct (rest cur) as [|c s] eqn:E; [discriminate|].
    destruct (p c); [|discriminate].
    apply greedy_sound in H as (pv' & l1 & l2 & El & _ & H).
    eexists _, g. split; [|split; [|split; [|exact H]]]; cbn [pos rest].
    + unfold at_offset in *. cbn [pos rest]. rewrite E, El in Hc. symmetry in Hc.
      apply (skipn_split _ _ (c :: l1) l2) in Hc. simpl in Hc.
      now rewrite Nat.add_succ_r in Hc.
    + apply (stretch_later s0 (pos cur)); [lia|exact Hg].
    + lia.
  - apply greedy_sound in H as (pv' & l1 & l2 & El & _ & H).
    eexists _, g. split; [|split; [|split; [|exact H]]]; cbn [pos rest].
    + unfold at_offset in *. cbn [pos rest]. rewrite El in Hc. symmetry in Hc.
      now apply skipn_split in Hc.
    + apply (stretch_later s0 (pos cur)); [lia|exact Hg].
    + lia.
  - apply (IH1 _ _ _ _ Hc Hg) in H as (cur1 & g1 & Hc1 & _ & Hp1 & H).
    eexists cur1, _. split; [exact Hc1|]. split; [|split; [exact Hp1|exact H]].
    exists (pos cur), (pos cur1). repeat split; [exact Hp1|lia|].
    unfold at_offset in Hc. now rewrite Hc.
  - destruct (run r1 cur g (fun _ _ => Some (O, None))); [|discriminate].
    exists cur, g. auto.
  - exists cur, g. repeat split; auto.
    destruct (prev cur) as [c|]; [destruct (p c); [discriminate|]|]; exact H.
  - exists cur, g. repeat split; auto.
    destruct (prev cur) as [c|]; [destruct (c =? NL); [|discriminate]|]; exact H.
Qed.

Lemma match_at_stretch (r : regex) pv (s : str) (n : nat) (g : option str) :
  match_at r pv s = Some (n, g) -> stretch_before s n g.
Proof.
  unfold match_at. intros H.
  apply (run_stretch s r) in H as (cur' & g' & _ & Hg & _ & H);
    [|reflexivity|exact I].
  inversion H. now subst.
Qed.

Lemma expand_subseq (repl : list ritem) (s : str) (n : nat) (g : option str) :
  deleting repl -> stretch_before s n g ->
  subseq (expand repl g) (firstn n s).
Proof.
  intros [->| ->] Hg; [apply subseq_nil_l|].
  cbn [expand flat_map]. rewrite app_nil_r.
  destruct g as [t|]; [|apply subseq_nil_l].
  destruct Hg as (a & b & _ & Hb & ->). now apply stretch_subseq.
Qed.

(** With such a template the result of [re.sub] is a subsequence of the
    text. *)
Lemma sub_from_subseq (r : regex) (repl : list ritem) (s : str) :
  deleting repl ->
  forall skip pv, subseq (sub_from r repl skip pv s) (skipn skip s).
Proof.
  intros Hd. induction s as [|c s IH]; intros skip pv.
  - rewrite skipn_nil. destruct skip; cbn [sub_from]; [|constructor].
    destruct (match_at r pv []) as [[n g]|] eqn:M; [|constructor].
    pose proof (expand_subseq repl [] n g Hd (match_at_stretch r pv [] n g M)) as E.
    now rewrite firstn_nil in E.
  - destruct skip as [|k]; cbn [sub_from skipn]; [|apply IH].
    destruct (match_at r pv (c :: s)) as [[n g]|] eqn:M.
    + pose proof (expand_subseq repl (c :: s) n g Hd
                    (match_at_stretch r pv _ n g M)) as E.
      destruct n as [|k].
      * cbn [firstn] in E.
        apply (subseq_app _ [] _ (c :: s) E). apply subseq_keep. apply (IH O).
      * rewrite <- (firstn_skipn (S k) (c :: s)).
        apply subseq_app; [exact E|]. cbn [skipn]. apply IH.
    + apply subseq_keep. apply (IH O).
Qed.

Lemma sub_subseq (r : regex) (repl : list ritem) (s : str) :
  deleting repl -> subseq (sub r repl s) s.
Proof. intros Hd. exact (sub_from_subseq r repl s Hd O None). Qed.

(** X17. The markdown stripper only deletes: its output is its input with
    some characters taken out, the others in their order, each at most as
    often as in the input; so the output is never longer than the input. *)
Theorem remove_markdown_only_deletes (text : str) :
  subseq (remove_markdown text) text
  /\ (length (remove_markdown text) <= length text)%nat.
Proof.
  assert (S : subseq (remove_markdown text) text).
  { unfold remove_markdown. cbv zeta.
    repeat (eapply subseq_trans;
            [apply sub_subseq; first [now left | now right]|]).
    apply subseq_refl. }
  split; [exact S|]. now apply subseq_length.
Qed.

(** ** The custom lexical replacer *)

Lemma occurs_empty (s : str) : occurs [] s = true.
Proof. destruct s; reflexivity. Qed.

Lemma replace_each_absent (items : dict) (text : str) :
  forallb (fun kv => negb (occurs (fst kv) text)) items = true ->
  replace_each items text = text.
Proof.
  unfold replace_each. induction items as [|[old new] items IH]; [reflexivity|].
  cbn [forallb fold_left fst snd]. intros H. apply andb_prop in H as [Ho Hi].
  apply negb_true_iff in Ho.
  rewrite str_replace_absent; [now apply IH| |exact Ho].
  intros ->. rewrite occurs_empty in Ho. discriminate.
Qed.

(** X18. When no key of the mapping occurs in the text, the text is returned
    as it is. *)
Theorem apply_custom_replacements_no_key (text : str) (items : dict) :
  forallb (fun kv => negb (occurs (fst kv) text)) items = true ->
  apply_custom_replacements text (Some items) = text.
Proof.
  intros H. rewrite apply_custom_replacements_each. now apply replace_each_absent.
Qed.

Lemma apply_custom_replacements_no_key_witness :
  apply_custom_replacements (lit "Hello world, see you at 10") (Some DEFAULT_REPLACEMENTS)
  = lit "Hello world, see you at 10".
Proof.
  apply (apply_custom_replacements_no_key (lit "Hello world, see you at 10")
           DEFAULT_REPLACEMENTS).
  reflexivity.
Defined.

(** X19. An entry whose key is a single character replaces every occurrence
    of that character by the value and keeps the other characters; the value
    itself is not scanned again. *)
Theorem apply_custom_replacements_one_char (text v : str) (c : codepoint) :
  apply_custom_replacements text (Some [([c], v)])
  = flat_map (fun x => if x =? c then v else [x]) text.
Proof.
  rewrite apply_custom_replacements_each. unfold replace_each.
  cbn [fold_left fst snd]. unfold str_replace.
  induction text as [|x s IH]; [reflexivity|].
  cbn [replace_from is_prefix length flat_map]. rewrite andb_true_r, Z.eqb_sym.
  destruct (x =? c); now rewrite IH.
Qed.

Lemma str_replace_length_from (old new : str) (s : str) :
  old <> [] -> (length new <= length old)%nat ->
  forall skip, (length (replace_from old new skip s) <= length s - skip)%nat.
Proof.
  intros Ho Hn. induction s as [|c s IH]; intros skip.
  - destruct skip, old; simpl; try lia. congruence.
  - destruct skip as [|k]; cbn [replace_from]; [|simpl; apply IH].
    destruct (is_prefix old (c :: s)) eqn:P.
    + destruct old as [|a old]; [congruence|].
      apply is_prefix_split in P as (t & E). cbn [app] in E.
      inversion E; subst. rewrite length_app. specialize (IH (length old)).
      rewrite length_app in *. simpl in *. rewrite ?length_app. lia.
    + specialize (IH O). simpl. lia.
Qed.

(** X20. A single entry whose value is not longer than its non-empty key
    never makes the text longer. *)
Theorem apply_custom_replacements_length (text old new : str) :
  old <> [] -> (length new <= length old)%nat ->
  (length (apply_custom_replacements text (Some [(old, new)])) <= length text)%nat.
Proof.
  intros Ho Hn. rewrite apply_custom_replacements_each. unfold replace_each.
  cbn [fold_left fst snd]. unfold str_replace.
  pose proof (str_replace_length_from old new text Ho Hn O). lia.
Qed.

Lemma apply_custom_replacements_length_witness :
  (length (apply_custom_replacements (lit "wait... what...") (Some [(lit "...", lit ",")]))
   <= length (lit "wait... what..."))%nat.
Proof.
  apply (apply_custom_replacements_length (lit "wait... what...") (lit "...") (lit ","));
    [discriminate|simpl; lia].
Defined.

(** ** The pause normalizer *)

Lemma collapse_all_space (s : str) :
  forallb is_space s = true -> collapse true s = [].
Proof.
  induction s as [|c s IH]; [reflexivity|]. simpl. intros H.
  apply andb_prop in H as [Hc Hs]. rewrite Hc. now apply IH.
Qed.

Lemma str_replace_space (s old new : str) (a : codepoint) (old' : str) :
  old = a :: old' -> is_space a = false ->
  forallb is_space s = true -> str_replace s old new = s.
Proof.
  intros -> Ha. induction s as [|c s IH]; intros H; [reflexivity|].
  simpl in H. apply andb_prop in H as [Hc Hs].
  rewrite str_replace_miss; [now rewrite IH|].
  cbn [is_prefix]. destruct (Z.eqb_spec a c) as [->|]; [congruence|reflexivity].
Qed.

(** X21. A text made of whitespace only, the empty text included, is
    normalized to the empty text. *)
Theorem normalize_pauses_blank (text : str) :
  forallb is_space text = true -> normalize_pauses text = [].
Proof.
  intros H. rewrite normalize_pauses_eq.
  rewrite (str_replace_space text (lit "...") (lit ",") DOT [DOT; DOT] eq_refl eq_refl H).
  destruct text as [|c s]; [reflexivity|].
  simpl in H. apply andb_prop in H as [Hc Hs].
  cbn [squeeze]. rewrite Hc, (collapse_all_space s Hs). reflexivity.
Qed.

Lemma normalize_pauses_blank_witness :
  normalize_pauses [SPACE; 9; NL; 13; 0xA0; 0x3000] = [].
Proof.
  apply (normalize_pauses_blank [SPACE; 9; NL; 13; 0xA0; 0x3000]). reflexivity.
Defined.

Lemma collapse_length (s : str) :
  forall b, (length (collapse b s) <= length s)%nat.
Proof.
  induction s as [|c s IH]; intros b; [simpl; lia|].
  cbn [squeeze]. destruct (is_space c).
  - destruct b; [specialize (IH true); simpl; lia|].
    specialize (IH true). simpl. lia.
  - specialize (IH false). simpl. lia.
Qed.

Lemma str_strip_length (s : str) : (length (str_strip s) <= length s)%nat.
Proof.
  unfold str_strip.
  destruct (lstrip_suffix s) as (l1 & E1).
  destruct (rstrip_prefix (lstrip s)) as (l2 & E2).
  apply (f_equal (@length _)) in E1, E2. rewrite length_app in E1, E2. lia.
Qed.

(** X22. The pause normalizer never makes a text longer. *)
Theorem normalize_pauses_length (text : str) :
  (length (normalize_pauses text) <= length text)%nat.
Proof.
  rewrite normalize_pauses_eq.
  pose proof (str_strip_length
                (collapse false (str_replace text (lit "...") (lit ",")))) as H1.
  pose proof (collapse_length (str_replace text (lit "...") (lit ",")) false) as H2.
  assert (H3 : (length (str_replace text (lit "...") (lit ",")) <= length text)%nat).
  { unfold str_replace.
    pose proof (str_replace_length_from (lit "...") (lit ",") text) as H.
    specialize (H ltac:(discriminate) ltac:(simpl; lia) O). lia. }
  lia.
Qed.

Lemma rstrip_fixed (s : str) :
  ends_with is_space s = false -> rstrip s = s.
Proof.
  induction s as [|c s IH]; [reflexivity|].
  rewrite rstrip_cons. destruct s as [|d s].
  - simpl. now intros ->.
  - intros H. change (ends_with is_space (d :: s) = false) in H.
    now rewrite (IH H).
Qed.

Lemma normalize_pauses_id (text : str) :
  occurs (lit "...") text = false ->
  single_spaced text = true ->
  starts_with is_space text = false ->
  ends_with is_space text = false ->
  normalize_pauses text = text.
Proof.
  intros Ho Hs Hb He. rewrite normalize_pauses_eq.
  rewrite str_replace_absent by (auto; discriminate).
  rewrite collapse_fixed by exact Hs.
  unfold str_strip. rewrite lstrip_fixed by exact Hb. now apply rstrip_fixed.
Qed.

(** X23. A text with no "...", in which every whitespace character is a
    single space, and which neither begins nor ends with whitespace, is
    returned as it is. *)
Theorem normalize_pauses_fixed (text : str) :
  occurs (lit "...") text = false ->
  single_spaced text = true ->
  starts_with is_space text = false ->
  ends_with is_space text = false ->
  normalize_pauses text = text.
Proof. apply normalize_pauses_id. Qed.

Lemma normalize_pauses_fixed_witness :
  normalize_pauses (lit "Wait, done. Next..") = lit "Wait, done. Next..".
Proof.
  apply (normalize_pauses_fixed (lit "Wait, done. Next..")); reflexivity.
Defined.

(** ** The pipeline orchestrator *)

Lemma normalize_pauses_shape (text : str) :
  occurs (lit "...") (normalize_pauses text) = false
  /\ single_spaced (normalize_pauses text) = true
  /\ starts_with is_space (normalize_pauses text) = false
  /\ ends_with is_space (normalize_pauses text) = false.
Proof.
  rewrite normalize_pauses_eq.
  set (b := collapse false (str_replace text (lit "...") (lit ","))).
  assert (Hb : occurs (lit "...") b = false).
  { unfold b. pose proof (replace_ellipsis_free text) as Ha.
    unfold ellipsis_free_after in Ha. rewrite lit_ellipsis in *.
    now apply collapse_occurs. }
  assert (Sb : single_spaced b = true) by apply collapse_single_spaced.
  destruct (lstrip_suffix b) as (l1 & E1).
  destruct (rstrip_prefix (lstrip b)) as (l2 & E2).
  unfold str_strip. repeat split.
  - apply (occurs_prefix _ _ l2). rewrite <- E2.
    apply (occurs_suffix _ l1). now rewrite <- E1.
  - apply rstrip_single_spaced, (single_spaced_suffix l1). now rewrite <- E1.
  - apply rstrip_head, lstrip_head.
  - apply rstrip_end.
Qed.

(** X24. With the pause normalizer enabled, whatever the other options and
    the mapping are, the result of the pipeline holds no "...", has single
    spaces as its only whitespace, and neither begins nor ends with
    whitespace. *)
Theorem preprocess_for_tts_normalized (text : str) (o : options) :
  normalize_pause o = true ->
  occurs (lit "...") (preprocess_for_tts text o) = false
  /\ single_spaced (preprocess_for_tts text o) = true
  /\ starts_with is_space (preprocess_for_tts text o) = false
  /\ ends_with is_space (preprocess_for_tts text o) = false.
Proof.
  intros H. unfold preprocess_for_tts, preprocess_logged. cbn [fst].
  rewrite H. apply normalize_pauses_shape.
Qed.

Lemma preprocess_for_tts_normalized_witness :
  single_spaced (preprocess_for_tts hello_text hello_options) = true.
Proof.
  exact (proj1 (proj2 (preprocess_for_tts_normalized hello_text hello_options
                         eq_refl))).
Defined.

(** The stages after the emoji remover, without a mapping, keep a class that
    holds of the comma and the space. *)
Lemma later_stages_kept (q : cls) (o : options) (t : str) :
  q COMMA = true -> q SPACE = true ->
  truthy (custom_replacements o) = false ->
  forallb q t = true ->
  forallb q
    (let t := if remove_md o then remove_markdown t else t in
     let t := if remove_brackets_quotes o then remove_brackets_and_quotes t else t in
     let t := if truthy (custom_replacements o)
              then apply_custom_replacements t (custom_replacements o) else t in
     if normalize_pause o then normalize_pauses t else t) = true.
Proof.
  intros Hc Hs Ht H. cbv zeta. rewrite Ht.
  assert (H1 : forallb q (if remove_md o then remove_markdown t else t) = true).
  { destruct (remove_md o); [now apply remove_markdown_kept|exact H]. }
  set (t1 := if remove_md o then remove_markdown t else t) in *.
  assert (H2 : forallb q (if remove_brackets_quotes o
                          then remove_brackets_and_quotes t1 else t1) = true).
  { destruct (remove_brackets_quotes o);
      [now apply remove_brackets_and_quotes_kept|exact H1]. }
  destruct (normalize_pause o); [now apply normalize_pauses_kept|exact H2].
Qed.

(** X25. With the emoji remover enabled and no mapping, no character of the
    emoji ranges is in the result of the pipeline, whatever the other options
    are: the later stages only delete characters or put in a comma or a
    space. *)
Theorem preprocess_for_tts_no_emoji (text : str) (o : options) :
  remove_emoji o = true ->
  truthy (custom_replacements o) = false ->
  Forall (fun c => emoji_class c = false) (preprocess_for_tts text o).
Proof.
  intros He Ht.
  assert (F : forallb not_emoji (preprocess_for_tts text o) = true).
  { unfold preprocess_for_tts, preprocess_logged. cbn [fst]. rewrite He.
    apply (later_stages_kept not_emoji o (remove_emojis text) eq_refl eq_refl Ht).
    rewrite remove_emojis_filter. apply forallb_filter. }
  apply Forall_forall. intros c Hc. rewrite forallb_forall in F.
  specialize (F c Hc). now apply negb_true_iff in F.
Qed.

Lemma preprocess_for_tts_no_emoji_witness :
  Forall (fun c => emoji_class c = false)
         (preprocess_for_tts (lit "Hi " ++ [party; NL; snake]) defaults).
Proof.
  exact (preprocess_for_tts_no_emoji (lit "Hi " ++ [party; NL; snake]) defaults
           eq_refl eq_refl).
Defined.

(** X26. With the bracket/quote stripper enabled and no mapping, no bracket,
    ASCII quotation mark, backtick or guillemet is in the result of the
    pipeline. *)
Theorem preprocess_for_tts_no_delimiter (text : str) (o : options) :
  remove_brackets_quotes o = true ->
  truthy (custom_replacements o) = false ->
  Forall (fun c => delimiter c = false) (preprocess_for_tts text o).
Proof.
  intros Hb Ht.
  assert (F : forallb (fun c => negb (delimiter c)) (preprocess_for_tts text o) = true).
  { unfold preprocess_for_tts, preprocess_logged. cbn [fst]. cbv zeta.
    rewrite Hb, Ht.
    assert (H : forallb (fun c => negb (delimiter c))
                  (remove_brackets_and_quotes
                     (if remove_md o
                      then remove_markdown
                             (if remove_emoji o then remove_emojis text else text)
                      else if remove_emoji o then remove_emojis text else text))
                = true).
    { rewrite remove_brackets_and_quotes_filter. apply forallb_filter. }
    destruct (normalize_pause o); [|exact H].
    now apply normalize_pauses_kept. }
  apply Forall_forall. intros c Hc. rewrite forallb_forall in F.
  specialize (F c Hc). now apply negb_true_iff in F.
Qed.

Lemma preprocess_for_tts_no_delimiter_witness :
  Forall (fun c => delimiter c = false)
         (preprocess_for_tts (lit "(a) [b](c) {d} <e> `f`") defaults).
Proof.
  exact (preprocess_for_tts_no_delimiter (lit "(a) [b](c) {d} <e> `f`") defaults
           eq_refl eq_refl).
Defined.

Lemma str_eqb_eq (a b : str) : str_eqb a b = true <-> a = b.
Proof.
  unfold str_eqb. split.
  - intros H. apply andb_prop in H as [Hl Hp]. apply Nat.eqb_eq in Hl.
    apply is_prefix_split in Hp as (t & ->). rewrite length_app in Hl.
    destruct t; [now rewrite app_nil_r|simpl in Hl; lia].
  - intros ->. rewrite Nat.eqb_refl. rewrite <- (app_nil_r b) at 2.
    now rewrite is_prefix_app.
Qed.

(** X28. A text that every stage leaves alone passes through the pipeline
    unchanged under any choice of flags, and no debug record is produced. *)
Theorem preprocess_for_tts_clean_text (text : str) (o : options) :
  truthy (custom_replacements o) = false ->
  forallb not_emoji text = true ->
  forallb (fun c => negb (inline_markup c)) text = true ->
  no_heading None text = true ->
  forallb (fun c => negb (delimiter c)) text = true ->
  occurs (lit "...") text = false ->
  single_spaced text = true ->
  starts_with is_space text = false ->
  ends_with is_space text = false ->
  preprocess_for_tts text o = text /\ snd (preprocess_logged text o) = None.
Proof.
  intros Ht He Hm Hh Hd Ho Hs Hb Hn.
  assert (E : preprocess_for_tts text o = text).
  { unfold preprocess_for_tts, preprocess_logged. cbn [fst]. cbv zeta.
    rewrite Ht.
    assert (Eb : remove_brackets_and_quotes text = text).
    { rewrite remove_brackets_and_quotes_filter. now apply filter_fixed. }
    destruct (remove_emoji o), (remove_md o), (remove_brackets_quotes o),
      (normalize_pause o);
      rewrite ?(remove_emojis_id text He), ?(remove_markdown_id text Hm Hh),
        ?Eb, ?(normalize_pauses_id text Ho Hs Hb Hn); reflexivity. }
  split; [exact E|].
  unfold preprocess_for_tts, preprocess_logged in *. cbn [fst snd] in *.
  rewrite E. now rewrite (proj2 (str_eqb_eq text text) eq_refl).
Qed.

Lemma preprocess_for_tts_clean_text_witness :
  preprocess_for_tts (lit "Hello, world! Is 3 # 4? Yes.") defaults
  = lit "Hello, world! Is 3 # 4? Yes.".
Proof.
  apply (preprocess_for_tts_clean_text (lit "Hello, world! Is 3 # 4? Yes.") defaults);
    reflexivity.
Defined.

(** ** More on the emoji remover and the markdown stripper *)

(** X29. The emoji remover is idempotent: its output holds no emoji, so a
    second application finds nothing to do. *)
Theorem remove_emojis_idempotent (text : str) :
  remove_emojis (remove_emojis text) = remove_emojis text.
Proof.
  apply remove_emojis_id. rewrite remove_emojis_filter. apply forallb_filter.
Qed.

(** The heading pattern needs whitespace after the hashes. *)
Lemma match_at_header_no_space (hs post : str) pv :
  forallb (is_char 35) hs = true ->
  starts_with is_space post = false ->
  starts_with (is_char 35) post = false ->
  match_at header_pattern pv (hs ++ post) = None.
Proof.
  intros Hh Hs Hp.
  destruct hs as [|h hs]; [now apply triggered_header|].
  simpl in Hh. apply andb_prop in Hh as [Hh0 Hh].
  assert (G : greedy (is_char 35)
                (fun cur' => run (Plus is_space) cur' None
                               (fun cur g => Some (pos cur, g)))
                (Some h) 1 (hs ++ post) = None).
  { destruct (greedy _ _ _ _ _) as [r|] eqn:E; [|reflexivity]. exfalso.
    apply greedy_sound in E as (pv' & l1 & l2 & E & Hl1 & K).
    cbn [run rest] in K.
    destruct l2 as [|c l2]; [discriminate|].
    destruct (is_space c) eqn:Hc; [|discriminate].
    symmetry in E. apply app_eq_app in E as (l & [[E1 E2]|[E1 E2]]).
    - destruct l as [|d l].
      + simpl in E2. subst post. simpl in Hs. congruence.
      + subst l1 post. rewrite forallb_app in Hl1.
        apply andb_prop in Hl1 as [_ Hl1]. simpl in Hl1, Hp.
        apply andb_prop in Hl1 as [Hd _]. congruence.
    - destruct l as [|d l].
      + simpl in E2. subst post. simpl in Hs. congruence.
      + inversion E2; subst. rewrite forallb_app in Hh.
        apply andb_prop in Hh as [_ Hh]. simpl in Hh.
        apply andb_prop in Hh as [Hd _]. unfold is_char in Hd.
        apply Z.eqb_eq in Hd. subst. discriminate. }
  unfold match_at, header_pattern. cbn [run prev rest pos app].
  cbn [run] in G. rewrite Hh0, G.
  destruct pv as [c|]; [destruct (c =? NL)|]; reflexivity.
Qed.

Lemma header_hashes_copied (repl : list ritem) (hs post : str) :
  forallb (is_char 35) hs = true ->
  starts_with is_space post = false ->
  starts_with (is_char 35) post = false ->
  forall pv,
    sub_from header_pattern repl O pv (hs ++ post)
    = hs ++ sub_from header_pattern repl O (prev_after pv hs) post.
Proof.
  intros Hh Hs Hp. induction hs as [|h hs IH]; intros pv; [reflexivity|].
  pose proof Hh as Hh'. simpl in Hh'. apply andb_prop in Hh' as [_ Hh'].
  pose proof (match_at_header_no_space (h :: hs) post pv Hh Hs Hp) as M.
  cbn [app] in M. cbn [app sub_from prev_after]. rewrite M.
  now rewrite (IH Hh').
Qed.

(** X30. Hashes that no whitespace follows are not a heading marker: in a
    text that has no markup characters otherwise, a run of hashes followed by
    a character that is no whitespace is kept, also at the start of a line. *)
Theorem remove_markdown_hashes_kept (pre hs post : str) :
  plain pre = true ->
  forallb (is_char 35) hs = true ->
  plain post = true -> starts_with is_space post = false ->
  remove_markdown (pre ++ hs ++ post) = pre ++ hs ++ post.
Proof.
  intros Hpre Hh Hpost Hs.
  assert (Hp : starts_with (is_char 35) post = false).
  { destruct post as [|c post]; [reflexivity|]. simpl in *.
    apply andb_prop in Hpost as [Hc _]. unfold is_char.
    destruct (Z.eqb_spec c 35) as [->|]; [discriminate Hc|reflexivity]. }
  assert (F : forall e, markup e = true -> (35 =? e) = false ->
                forallb (not_char e) (pre ++ hs ++ post) = true).
  { intros e He H35. apply free_around; auto. now apply (char_free e 35). }
  unfold remove_markdown. cbv zeta.
  rewrite (sub_free _ 42 _ _ (triggered_span2 42) (F 42 eq_refl eq_refl)).
  rewrite (sub_free _ 42 _ _ (triggered_span1 42) (F 42 eq_refl eq_refl)).
  rewrite (sub_free _ 126 _ _ (triggered_span2 126) (F 126 eq_refl eq_refl)).
  rewrite (sub_free _ 96 _ _ (triggered_span1 96) (F 96 eq_refl eq_refl)).
  assert (E5 : sub header_pattern [] (pre ++ hs ++ post) = pre ++ hs ++ post).
  { unfold sub.
    rewrite (sub_from_copy header_pattern (is_char 35) [] pre (hs ++ post)
               triggered_header (plain_free 35 pre eq_refl Hpre)).
    rewrite (header_hashes_copied [] hs post Hh Hs Hp).
    rewrite <- (app_nil_r post) at 1.
    rewrite (sub_from_copy header_pattern (is_char 35) [] post []
               triggered_header (plain_free 35 post eq_refl Hpost)).
    rewrite (sub_from_nil _ _ _ _ triggered_header). now rewrite app_nil_r. }
  rewrite E5. apply (sub_free _ 91 _ _ triggered_link). apply F; reflexivity.
Qed.

Lemma remove_markdown_hashes_kept_witness :
  remove_markdown (lit "tags:" ++ [NL] ++ lit "#python is fun")
  = lit "tags:" ++ [NL] ++ lit "#python is fun".
Proof.
  apply (remove_markdown_hashes_kept (lit "tags:" ++ [NL]) (lit "#")
           (lit "python is fun")); reflexivity.
Defined.
